(** * Argument Clinic: option groups, lexer, version comparator, driver

    A shallow embedding of the pure and effectful parts of
    [Tools/clinic]:

    - [clinic/option_groups.py]   the permutation engine,
    - [libclinic/parser.py]       the line tokenizer,
    - [libclinic/version.py]      the version splitter and comparator,
    - [libclinic/cli.py]          [parse_file] and [main].

    Python generators are modelled by the list of values they yield, in
    order; exceptions by the [Raises] branch of [result]; in-place
    mutation by explicit state passing. *)

From Stdlib Require Import ZArith NArith Lia Ascii String.
From stdpp Require Import ssreflect base gmap sets list strings sorting.

Set Default Proof Using "Type".
#[local] Set Warnings "-rewrite-rw".

(* ===================================================================== *)
(** * Part I: the program                                                 *)
(* ===================================================================== *)

(** ** Python outcomes *)

Module Py.

(** The exception classes that the sources raise, catch or declare.
    [ClinicError] is imported by [cli.py] from [libclinic], whose [errors]
    module is not among the sources: [ClinicErrorSubclass] stands for a
    class that module derives from [ClinicError]. [ParseError] is the class
    [parser.py] declares itself when that module cannot be imported. *)
Inductive exc_class : Type :=
  | BaseException
  | Exception
  | SystemExit
  | ValueError
  | KeyError
  | AssertionError
  | OSError
  | ClinicError
  | ClinicErrorSubclass
  | ParseError
  | ParseVersionError.

(** A Python [str] is a sequence of Unicode code points. *)
Definition str : Type := list N.

Definition of_string (s : string) : str :=
  N_of_ascii <$> list_ascii_of_string s.

Definition chr (a : ascii) : N := N_of_ascii a.

Global Arguments chr : simpl never.
Global Arguments of_string : simpl never.

Inductive pyval : Type :=
  | VStr (s : str)
  | VInt (n : Z).

(** An exception instance: its class and the values it is built or its
    message is formatted from. *)
Record exception : Type := Exc { exc_type : exc_class; exc_args : list pyval }.

(** The classes an instance of each class is an instance of, nearest
    first. [ParseVersionError] is declared in [version.py] with
    [BaseException] as its only base, [ParseError] in [parser.py] with
    [Exception]. *)
Definition mro (c : exc_class) : list exc_class :=
  match c with
  | BaseException => [BaseException]
  | Exception => [Exception; BaseException]
  | SystemExit => [SystemExit; BaseException]
  | ParseVersionError => [ParseVersionError; BaseException]
  | ClinicError => [ClinicError; Exception; BaseException]
  | ClinicErrorSubclass =>
      [ClinicErrorSubclass; ClinicError; Exception; BaseException]
  | ValueError | KeyError | AssertionError | OSError | ParseError =>
      [c; Exception; BaseException]
  end.

Global Instance exc_class_eq_dec : EqDecision exc_class.
Proof. solve_decision. Defined.

Definition isinstance (e : exception) (c : exc_class) : bool :=
  bool_decide (c ∈ mro (exc_type e)).

Definition starts_with (p s : str) : bool := bool_decide (take (length p) s = p).

Definition ends_with (p s : str) : bool :=
  bool_decide (drop (length s - length p) s = p).

(** Index of the last occurrence of [c] in [s]. *)
Fixpoint last_index (c : N) (s : str) : option nat :=
  match s with
  | [] => None
  | d :: rest =>
      match last_index c rest with
      | Some i => Some (S i)
      | None => if (d =? c)%N then Some 0 else None
      end
  end.

Inductive result (A : Type) : Type :=
  | Returns (a : A)
  | Raises (e : exception).
Global Arguments Returns {A} a.
Global Arguments Raises {A} e.

Global Instance result_ret : MRet result := fun _ a => Returns a.
Global Instance result_bind : MBind result := fun _ _ f m =>
  match m with
  | Returns a => f a
  | Raises e => Raises e
  end.

End Py.

(** ** [clinic/option_groups.py] *)

Module OptionGroups.
Import Py.

Section Groups.
Context {Param : Type}.

Definition ParamTuple : Type := list Param.

(** One round of the loop of [permute_left_option_groups]:
    [accumulator = list(group) + accumulator; yield tuple(accumulator)].
    The state is the accumulator together with what was yielded so far. *)
Definition left_step (st : list Param * list ParamTuple)
    (group : list Param) : list Param * list ParamTuple :=
  let accumulator := group ++ st.1 in
  (accumulator, st.2 ++ [accumulator]).

Definition permute_left_option_groups (l : list (list Param))
    : list ParamTuple :=
  (foldl left_step ([], [ [] ]) (reverse l)).2.

(** [accumulator.extend(group); yield tuple(accumulator)] *)
Definition right_step (st : list Param * list ParamTuple)
    (group : list Param) : list Param * list ParamTuple :=
  let accumulator := st.1 ++ group in
  (accumulator, st.2 ++ [accumulator]).

Definition permute_right_option_groups (l : list (list Param))
    : list ParamTuple :=
  (foldl right_step ([], [ [] ]) l).2.

(** [accumulator.sort(key=len)]: Python's sort is stable, so an element
    is placed before the later elements whose key is not smaller. *)
Fixpoint insert_by_len (t : ParamTuple) (sorted : list ParamTuple)
    : list ParamTuple :=
  match sorted with
  | [] => [t]
  | u :: rest =>
      if decide (length t ≤ length u) then t :: u :: rest
      else u :: insert_by_len t rest
  end.

Definition sort_by_len (l : list ParamTuple) : list ParamTuple :=
  foldr insert_by_len [] l.

(** The body of the inner loop of [permute_optional_groups], on the state
    [(accumulator, counts)]. *)
Definition visit (st : list ParamTuple * gset nat) (t : ParamTuple)
    : list ParamTuple * gset nat :=
  if decide (length t ∈ st.2) then st
  else (st.1 ++ [t], {[ length t ]} ∪ st.2).

Definition permute_optional_groups
    (left : list (list Param)) (required : list Param)
    (right : list (list Param)) : result (list ParamTuple) :=
  match required, left with
  | [], _ :: _ =>
      Raises (Exc ValueError [VStr (of_string "required is empty but left is not")])
  | _, _ =>
      let st :=
        foldl (fun st r =>
                 foldl (fun st l => visit st (l ++ required ++ r))
                       st (permute_left_option_groups left))
              ([], ∅) (permute_right_option_groups right) in
      Returns (sort_by_len st.1)
  end.

(** What the specification calls the variants: the [i] left groups
    nearest the required block, and the first [j] right groups. *)
Definition left_variant (left : list (list Param)) (i : nat)
    : ParamTuple :=
  concat (drop (length left - i) left).

Definition right_variant (right : list (list Param)) (j : nat)
    : ParamTuple :=
  concat (take j right).

Definition variant (left : list (list Param)) (required : list Param)
    (right : list (list Param)) (i j : nat) : ParamTuple :=
  left_variant left i ++ required ++ right_variant right j.

(** The order in which the loops visit the pairs [(j, i)] of a right and
    a left variant: lexicographic. *)
Definition before (p q : nat * nat) : Prop :=
  p.1 < q.1 ∨ (p.1 = q.1 ∧ p.2 < q.2).

(** The invariant of the loops, for [m] left variants and the tuple
    [F i j] built at the pair [(j, i)], on the state [(accumulator, counts)]
    reached just before the pair [(J, I)]: [counts] holds the lengths of the
    accumulator, which are distinct; every tuple of the accumulator is the
    first of its length among the pairs visited, and every pair visited has
    its length there. *)
Record visited (m : nat) (F : nat → nat → ParamTuple) (J I : nat)
    (st : list ParamTuple * gset nat) : Prop := {
  visited_counts : ∀ k, k ∈ st.2 ↔ ∃ t, t ∈ st.1 ∧ length t = k;
  visited_nodup : NoDup (length <$> st.1);
  visited_first : ∀ t, t ∈ st.1 →
    ∃ i j, i < m ∧ before (j, i) (J, I) ∧ t = F i j ∧
      ∀ i' j', i' < m → before (j', i') (j, i) → length (F i' j') ≠ length t;
  visited_all : ∀ i j, i < m → before (j, i) (J, I) →
    ∃ t, t ∈ st.1 ∧ length t = length (F i j)
}.

End Groups.
End OptionGroups.

(** ** [libclinic/parser.py] *)

Module Lexer.
Import Py.

Inductive token_kind : Type := ARROW | CLONE | ARGS | WORD | SPACE | MISMATCH.

Global Instance token_kind_eq_dec : EqDecision token_kind.
Proof. solve_decision. Defined.

Record Token : Type := mkToken { kind : token_kind; value : str }.

Definition is_ascii_alnum (c : N) : bool :=
  ((48 <=? c) && (c <=? 57) || (65 <=? c) && (c <=? 90)
   || (97 <=? c) && (c <=? 122))%N.

Fixpoint take_while (p : N → bool) (s : str) : str :=
  match s with
  | [] => []
  | c :: rest => if p c then c :: take_while p rest else []
  end.

Definition nonempty_run (p : N → bool) (s : str) : option nat :=
  match length (take_while p s) with
  | 0 => None
  | S n => Some (S n)
  end.

Section Tokenizer.

(** [str.isalnum] on the code points outside ASCII, as decided by the
    Unicode database of the running interpreter. *)
Variable unicode_isalnum : N → bool.

Definition isalnum (c : N) : bool :=
  if (c <? 128)%N then is_ascii_alnum c else unicode_isalnum c.

(** [\w] in a [str] pattern: alphanumeric or underscore. *)
Definition is_word (c : N) : bool := isalnum c || (c =? chr "_")%N.

(** [.] without DOTALL: anything but a newline. *)
Definition is_dot (c : N) : bool := negb (c =? 10)%N.

(** Each alternative of the pattern, as the length of its match at the
    start of [s], if it matches there. *)

(** [->] *)
Definition match_ARROW (s : str) : option nat :=
  if starts_with (of_string "->") s then Some 2 else None.

(** [=] *)
Definition match_CLONE (s : str) : option nat :=
  if starts_with (of_string "=") s then Some 1 else None.

(** [\(.*\)]: the greedy [.*] runs to the end of the line and backtracks
    to the last closing parenthesis. *)
Definition match_ARGS (s : str) : option nat :=
  match s with
  | c :: rest =>
      if (c =? chr "(")%N
      then (fun i => S (S i)) <$> last_index (chr ")") (take_while is_dot rest)
      else None
  | [] => None
  end.

(** [[\w.]+] *)
Definition match_WORD (s : str) : option nat :=
  nonempty_run (fun c => is_word c || (c =? chr ".")%N) s.

(** [[ ]+] *)
Definition match_SPACE (s : str) : option nat :=
  nonempty_run (fun c => (c =? chr " ")%N) s.

(** [.] *)
Definition match_MISMATCH (s : str) : option nat :=
  match s with
  | c :: _ => if is_dot c then Some 1 else None
  | [] => None
  end.

Definition token_specification : list (token_kind * (str → option nat)) :=
  [ (ARROW, match_ARROW); (CLONE, match_CLONE); (ARGS, match_ARGS);
    (WORD, match_WORD); (SPACE, match_SPACE); (MISMATCH, match_MISMATCH) ].

(** The alternation [(?P<ARROW>..)|(?P<CLONE>..)|...] at one position: the
    first alternative that matches there wins. *)
Fixpoint first_alternative (spec : list (token_kind * (str → option nat)))
    (s : str) : option (token_kind * nat) :=
  match spec with
  | [] => None
  | (k, m) :: rest =>
      match m s with
      | Some n => Some (k, n)
      | None => first_alternative rest s
      end
  end.

Definition regex_match : str → option (token_kind * nat) :=
  first_alternative token_specification.

(** [re.finditer(regex, line)]: the matches [(mo.lastgroup, mo.group())],
    left to right. [skip] counts the characters of the current match that
    are still to be passed over; where no alternative matches (a newline)
    the search moves on by one character. *)
Fixpoint finditer (skip : nat) (s : str) : list (token_kind * str) :=
  match s with
  | [] => []
  | _ :: rest =>
      match skip with
      | S k => finditer k rest
      | 0 =>
          match regex_match s with
          | None => finditer 0 rest
          | Some (k, n) => (k, take n s) :: finditer (n - 1) rest
          end
      end
  end.

(** The loop of [tokenize] over the matches: the tokens yielded, and the
    exception that ends the generator, if one is raised. The message of the
    [ParseError] is [repr(value)] followed by [" stray character in input"];
    the exception keeps [value]. *)
Fixpoint tokens_of (matches : list (token_kind * str))
    : list Token * option exception :=
  match matches with
  | [] => ([], None)
  | (SPACE, _) :: rest => tokens_of rest
  | (MISMATCH, v) :: _ => ([], Some (Exc ParseError [VStr v]))
  | (k, v) :: rest =>
      let r := tokens_of rest in (mkToken k v :: r.1, r.2)
  end.

Definition tokenize (line : str) : list Token * option exception :=
  tokens_of (finditer 0 line).

(** A character that no alternative but MISMATCH can match or take part
    in: not a newline, not a word character or a dot, not a space, and
    none of [=], [(], [-], [>]. *)
Definition never_matches (c : N) : bool :=
  is_dot c && negb (is_word c)
  && bool_decide (c ∉ of_string ". =(->").

End Tokenizer.

(** The database with no alphanumeric code point outside ASCII; on ASCII
    input every database gives the same tokens. *)
Definition ascii_only : N → bool := fun _ => false.

End Lexer.

(** ** [libclinic/version.py] *)

Module Version.
Import Py.

Section Splitter.

(** [str.isdigit] on the code points outside ASCII, and the value [int]
    gives to such a code point when it is a decimal digit ([None] when
    [int] rejects it, as it does for superscripts). *)
Variable unicode_isdigit : N → bool.
Variable unicode_decimal : N → option Z.

Definition isdigit (c : N) : bool :=
  if (c <? 128)%N then (48 <=? c)%N && (c <=? 57)%N else unicode_isdigit c.

Definition decimal_value (c : N) : option Z :=
  if (c <? 128)%N
  then if (48 <=? c)%N && (c <=? 57)%N then Some (Z.of_N c - 48)%Z else None
  else unicode_decimal c.

(** [int(''.join(accumulator))] on a non-empty run of digits, read left
    to right in base ten. (The interpreter's configurable bound on the
    number of digits [int] accepts is left out: it applies to no run of
    640 digits or fewer, and to a longer run it turns the result into a
    [ValueError] and changes no result.) *)
Definition int_step (acc : result Z) (c : N) : result Z :=
  n ← acc;
  match decimal_value c with
  | Some d => Returns (10 * n + d)%Z
  | None => Raises (Exc ValueError [VStr (of_string "invalid literal for int()")])
  end.

Definition int (digits : str) : result Z := foldl int_step (Returns 0%Z) digits.

(** The two lists the closure [flush] shares with the loop. *)
Record splitter_state : Type :=
  mkState { version : list Z; accumulator : str }.

Definition flush (s : str) (st : splitter_state) : result splitter_state :=
  match accumulator st with
  | [] =>
      Raises (Exc ParseVersionError
                [VStr (of_string "Unsupported version string: "); VStr s])
  | _ :: _ =>
      n ← int (accumulator st);
      Returns (mkState (version st ++ [n]) [])
  end.

(** ['abc'.index(c)] for [c in 'abc']. *)
Definition abc_index (c : N) : option Z :=
  if (c =? chr "a")%N then Some 0%Z
  else if (c =? chr "b")%N then Some 1%Z
  else if (c =? chr "c")%N then Some 2%Z
  else None.

Definition splitter_step (s : str) (st : splitter_state) (c : N)
    : result splitter_state :=
  if isdigit c then Returns (mkState (version st) (accumulator st ++ [c]))
  else if (c =? chr ".")%N then flush s st
  else match abc_index c with
       | Some i =>
           st' ← flush s st;
           Returns (mkState (version st' ++ [(i - 3)%Z]) (accumulator st'))
       | None =>
           Raises (Exc ParseVersionError
                     [VStr (of_string "Illegal character in version string");
                      VStr [c]; VStr s])
       end.

Fixpoint splitter_loop (s : str) (st : splitter_state) (cs : str)
    : result splitter_state :=
  match cs with
  | [] => Returns st
  | c :: rest => st' ← splitter_step s st c; splitter_loop s st' rest
  end.

Definition _version_splitter (s : str) : result (list Z) :=
  st ← splitter_loop s (mkState [] []) s;
  st' ← flush s st;
  Returns (version st').

(** [itertools.zip_longest(a, b, fillvalue=...)] *)
Fixpoint zip_longest (a b : list Z) (fillvalue : Z) : list (Z * Z) :=
  match a with
  | [] => (fun y => (fillvalue, y)) <$> b
  | x :: a' =>
      match b with
      | [] => (x, fillvalue) :: zip_longest a' [] fillvalue
      | y :: b' => (x, y) :: zip_longest a' b' fillvalue
      end
  end.

(** The loop of [version_comparator] over the pairs. *)
Fixpoint compare_pairs (iterator : list (Z * Z)) : Z :=
  match iterator with
  | [] => 0%Z
  | (a, b) :: rest =>
      if (a <? b)%Z then (-1)%Z
      else if (a >? b)%Z then 1%Z
      else compare_pairs rest
  end.

Definition version_comparator (version1 version2 : str) : result Z :=
  t1 ← _version_splitter version1;
  t2 ← _version_splitter version2;
  Returns (compare_pairs (zip_longest t1 t2 0)).

(** An ASCII character that [isdigit] accepts: one of [0] to [9]. *)
Definition ascii_digit (c : N) : Prop := (c <? 128)%N = true ∧ isdigit c = true.

(** The characters that the loop of [_version_splitter] has a branch
    for. *)
Definition allowed (c : N) : Prop :=
  isdigit c = true ∨ c = chr "." ∨ c ∈ of_string "abc".

End Splitter.

(** The database with no digit outside ASCII. *)
Definition no_unicode_digit : N → bool := fun _ => false.
Definition no_unicode_decimal : N → option Z := fun _ => None.

End Version.

(** ** [libclinic/cli.py] *)

Module Cli.
Import Py.

(** What the driver can observe and change: the files, by path, and the
    two output streams. *)
Record world : Type :=
  mkWorld { files : gmap str str; stdout : list str; stderr : list str }.

(** Effectful code: it threads the world and returns or raises. *)
Definition M (A : Type) : Type := world → world * result A.

Definition ret {A} (a : A) : M A := fun w => (w, Returns a).
Definition raise {A} (e : exception) : M A := fun w => (w, Raises e).
Definition bind {A B} (m : M A) (f : A → M B) : M B := fun w =>
  match m w with
  | (w', Returns a) => f a w'
  | (w', Raises e) => (w', Raises e)
  end.

Global Instance M_ret : MRet M := @ret.
Global Instance M_bind : MBind M := fun _ _ f m => bind m f.

Fixpoint for_each {A} (l : list A) (body : A → M unit) : M unit :=
  match l with
  | [] => ret tt
  | x :: rest => body x ;; for_each rest body
  end.

Definition print (line : str) : M unit := fun w =>
  (mkWorld (files w) (stdout w ++ [line]) (stderr w), Returns tt).

Definition stderr_write (text : str) : M unit := fun w =>
  (mkWorld (files w) (stdout w) (stderr w ++ [text]), Returns tt).

(** [with open(filename, encoding="utf-8") as f: raw = f.read()] *)
Definition read_file (filename : str) : M str := fun w =>
  match files w !! filename with
  | Some raw => (w, Returns raw)
  | None => (w, Raises (Exc OSError [VStr filename]))
  end.

(** [sys.exit(status)] raises [SystemExit(status)]. *)
Definition sys_exit (status : Z) : exception := Exc SystemExit [VInt status].

Inductive Language : Type :=
  | CLanguage (filename : str)
  | PythonLanguage (filename : str).

(** [extensions]: the file extension mapped to the language class. *)
Definition extensions : gmap str (str → Language) :=
  <[ of_string "py" := PythonLanguage ]>
    (list_to_map
       ((fun name => (of_string name, CLanguage)) <$>
          ["c"; "cc"; "cpp"; "cxx"; "h"; "hh"; "hpp"; "hxx"]%string)).

(** [LIMITED_CAPI_REGEX = re.compile(r'#define +Py_LIMITED_API')] matched
    at the start of [s]: the greedy run of spaces must be followed by the
    identifier. *)
Fixpoint skip_spaces (s : str) : str :=
  match s with
  | c :: rest => if (c =? chr " ")%N then skip_spaces rest else s
  | [] => []
  end.

Definition limited_capi_at (s : str) : bool :=
  starts_with (of_string "#define ") s
  && starts_with (of_string "Py_LIMITED_API") (skip_spaces (drop 8 s)).

(** [pattern.search(s)] as a truth value: a match at some position. *)
Fixpoint regex_search (matches_at : str → bool) (s : str) : bool :=
  matches_at s ||
  match s with
  | [] => false
  | _ :: rest => regex_search matches_at rest
  end.

(** [argparse.Namespace] as [create_cli] declares it. *)
Record Namespace : Type := mkNamespace {
  force : bool;
  output : option str;
  verbose : bool;
  converters : bool;
  make : bool;
  srcdir : str;
  exclude : option (list str);
  limited_capi : bool;
  filename : list str
}.

(** [not x] for an optional string: [None] and the empty string are false. *)
Definition truthy (o : option str) : bool :=
  match o with
  | Some (_ :: _) => true
  | _ => false
  end.

Section Driver.

(** What [cli.py] calls but does not define. *)

(** [os.path.splitext], [os.path.join], [os.path.normpath] *)
Variable splitext : str → str * str.
Variable path_join : str → str → str.
Variable normpath : str → str.
(** [BlockParser("", language).find_start_re.search(raw)], as a truth value *)
Variable find_start : Language → str → bool.
(** [Clinic(language, verify=, filename=, limited_capi=).parse(raw)] *)
Variable clinic_parse : Language → bool → str → bool → str → M str.
(** [libclinic.write_file(output, cooked)] *)
Variable write_file : str → str → M unit.
(** [exc.report()] of a [ClinicError] *)
Variable report : exception → str.
(** [create_cli().parse_args(argv)]; argparse itself prints and raises
    [SystemExit] on a usage error. *)
Variable parse_args : list str → M Namespace.
(** The report of [--converters], which reflects over the [clinic] module. *)
Variable print_converters : M unit.
(** [for root, dirs, files in os.walk(top)], where [prune] is what the
    loop body removes from [dirs] and [body root files] is the rest of the
    loop body. *)
Variable os_walk : str → (list str → list str) → (str → list str → M unit) → M unit.

Definition parse_file (filename : str) (limited_capi : bool)
    (output : option str) (verify : bool) : M unit :=
  let output := if truthy output then default filename output else filename in
  let extension := drop 1 (splitext filename).2 in
  match extension with
  | [] =>
      raise (Exc ClinicError
               [VStr (of_string "Can't extract file type for file "); VStr filename])
  | _ :: _ =>
      match extensions !! extension with
      | None =>
          raise (Exc ClinicError
                   [VStr (of_string "Can't identify file type for file ");
                    VStr filename])
      | Some language_class =>
          let language := language_class filename in
          raw ← read_file filename;
          (* exit quickly if there are no clinic markers in the file *)
          if negb (find_start language raw) then ret tt
          else
            let limited_capi :=
              if regex_search limited_capi_at raw then true else limited_capi in
            match language with
            | PythonLanguage _ => raise (Exc AssertionError [])
            | CLanguage _ =>
                cooked ← clinic_parse language verify filename limited_capi raw;
                write_file output cooked
            end
      end
  end.

(** [parser.error(message)]: argparse writes the message to the error
    stream and exits with status 2. *)
Definition parser_error (message : string) : M unit :=
  stderr_write (of_string message) ;; raise (sys_exit 2).

Definition rcs_dirs : list str :=
  of_string <$> [".svn"; ".git"; ".hg"; "build"; "externals"]%string.

(** [dirs.remove(x)] takes out the first occurrence. *)
Fixpoint list_remove (x : str) (dirs : list str) : list str :=
  match dirs with
  | [] => []
  | d :: rest => if decide (x = d) then rest else d :: list_remove x rest
  end.

Definition prune_rcs_dirs (dirs : list str) : list str :=
  foldl (fun dirs rcs_dir =>
           if bool_decide (rcs_dir ∈ dirs) then list_remove rcs_dir dirs
           else dirs)
        dirs rcs_dirs.

Definition run_make (ns : Namespace) : M unit :=
  (if truthy (output ns) || bool_decide (filename ns ≠ [])
   then parser_error "can't use -o or filenames with --make" else ret tt) ;;
  (if bool_decide (srcdir ns = [])
   then parser_error "--srcdir must not be empty with --make" else ret tt) ;;
  let excludes :=
    match exclude ns with
    | Some (f :: fs) => (fun f => normpath (path_join (srcdir ns) f)) <$> (f :: fs)
    | _ => []
    end in
  os_walk (srcdir ns) prune_rcs_dirs (fun root files =>
    for_each files (fun filename =>
      (* handle .c, .cpp and .h files *)
      if negb (ends_with (of_string ".c") filename
               || ends_with (of_string ".cpp") filename
               || ends_with (of_string ".h") filename)
      then ret tt
      else
        let path := normpath (path_join root filename) in
        if bool_decide (path ∈ excludes) then ret tt
        else
          (if verbose ns then print path else ret tt) ;;
          parse_file path (limited_capi ns) None (negb (force ns)))).

Definition run_clinic (ns : Namespace) : M unit :=
  if converters ns then
    (if bool_decide (filename ns ≠ [])
     then parser_error "can't specify --converters and a filename at the same time"
     else ret tt) ;;
    print_converters
  else if make ns then run_make ns
  else
    (if bool_decide (filename ns = [])
     then parser_error "no input files" else ret tt) ;;
    (if truthy (output ns) && bool_decide (1 < length (filename ns))
     then parser_error "can't use -o with multiple filenames" else ret tt) ;;
    for_each (filename ns) (fun filename =>
      (if verbose ns then print filename else ret tt) ;;
      parse_file filename (limited_capi ns) (output ns) (negb (force ns))).

(** [main] never returns: it ends in [sys.exit] or lets an exception
    through. The result is the world it leaves and the exception that
    leaves it. *)
Definition main (argv : list str) (w : world) : world * exception :=
  match parse_args argv w with
  | (w1, Raises e) => (w1, e)
  | (w1, Returns args) =>
      match run_clinic args w1 with
      | (w2, Raises exc) =>
          if isinstance exc ClinicError
          then ((stderr_write (report exc) w2).1, sys_exit 1)
          else (w2, exc)
      | (w2, Returns _) => (w2, sys_exit 0)
      end
  end.

End Driver.

(** [os.path.splitext] on POSIX: the extension starts at the last dot of
    the last path component, leading dots of that component apart. *)
Definition posix_splitext (p : str) : str * str :=
  let start := match last_index (chr "/") p with Some i => S i | None => 0 end in
  match last_index (chr ".") p with
  | Some dot =>
      if decide (start ≤ dot)
      then if forallb (fun c => (c =? chr ".")%N) (take (dot - start) (drop start p))
           then (p, [])
           else (take dot p, drop dot p)
      else (p, [])
  | None => (p, [])
  end.

(** *** A sample environment, for the examples

    The functions that [cli.py] imports are instantiated as follows: a
    start marker is the text [[clinic input]]; [Clinic.parse] runs the
    version comparator on the text after the marker of a [version]
    directive, as the only thing it does; [write_file] stores the text;
    [parse_args] takes every argument as a file name. *)

Definition sample_find_start (language : Language) (raw : str) : bool :=
  regex_search (starts_with (of_string "[clinic input]")) raw.

Definition sample_clinic_parse (language : Language) (verify : bool)
    (filename : str) (limited_capi : bool) (raw : str) : M str :=
  match Version.version_comparator Version.no_unicode_digit
          Version.no_unicode_decimal (drop 14 raw) (of_string "1.0") with
  | Raises e => raise e
  | Returns _ => ret raw
  end.

Definition sample_write_file (path text : str) : M unit := fun w =>
  (mkWorld (<[ path := text ]> (files w)) (stdout w) (stderr w), Returns tt).

Definition sample_report (e : exception) : str :=
  match exc_args e with
  | [VStr message; VStr subject] => message ++ subject ++ [10%N]
  | _ => [10%N]
  end.

Definition sample_parse_args (argv : list str) : M Namespace :=
  ret (mkNamespace false None false false false (of_string ".") None false argv).

Definition sample_main : list str → world → world * exception :=
  main posix_splitext (fun a b => a ++ of_string "/" ++ b) id
       sample_find_start sample_clinic_parse sample_write_file sample_report
       sample_parse_args (ret tt) (fun _ _ _ => ret tt).

Definition sample_run_clinic : Namespace → M unit :=
  run_clinic posix_splitext (fun a b => a ++ of_string "/" ++ b) id
             sample_find_start sample_clinic_parse sample_write_file
             (ret tt) (fun _ _ _ => ret tt).

Definition sample_namespace (filenames : list str) : Namespace :=
  mkNamespace false None false false false (of_string ".") None false filenames.

(** The arguments [ns] with other file names. *)
Definition with_filename (ns : Namespace) (filenames : list str) : Namespace :=
  mkNamespace (force ns) (output ns) (verbose ns) (converters ns) (make ns)
    (srcdir ns) (exclude ns) (limited_capi ns) filenames.

(** The invocations that [run_clinic] rejects with [parser.error]. *)
Definition usage_error (ns : Namespace) : Prop :=
  if converters ns then filename ns ≠ []
  else if make ns
       then truthy (output ns) = true ∨ filename ns ≠ [] ∨ srcdir ns = []
       else filename ns = []
            ∨ (truthy (output ns) = true ∧ 1 < length (filename ns)).

Definition sample_parse_file : str → bool → option str → bool → M unit :=
  parse_file posix_splitext sample_find_start sample_clinic_parse
             sample_write_file.

Definition sample_world : world :=
  mkWorld (list_to_map
             [ (of_string "README", of_string "plain text");
               (of_string "module.c", of_string "int x;");
               (of_string "versioned.c", of_string "[clinic input]1..2") ])
          [] [].

End Cli.

(** ** What each alternative of the tokenizer's pattern matches *)

Module TokenShape.
Import Py Lexer.

(** The texts that the alternative of kind [k] can match, [is_word]
    being the class [\w]. *)
Definition token_shape (is_word : N → bool) (k : token_kind) (v : str) : Prop :=
  match k with
  | ARROW => v = of_string "->"
  | CLONE => v = of_string "="
  | ARGS => ∃ body, v = chr "(" :: body ++ [chr ")"] ∧ 10%N ∉ body
  | WORD => v ≠ [] ∧ Forall (fun c => is_word c = true ∨ c = chr ".") v
  | SPACE => v ≠ [] ∧ Forall (fun c => c = chr " ") v
  | MISMATCH => ∃ c, v = [c] ∧ c ≠ 10%N
  end.

End TokenShape.

(** ** [libclinic/parser.py], the printing part *)

Module ParserMain.
Import Py Lexer Cli.

(** [f.readlines()] of a file opened in text mode: the text cut after
    every newline; the last line has none when the text does not end in
    one. [current] is the line being read. *)
Fixpoint readlines_from (current : str) (text : str) : list str :=
  match text with
  | [] => match current with [] => [] | _ :: _ => [current] end
  | c :: rest =>
      if (c =? 10)%N then (current ++ [c]) :: readlines_from [] rest
      else readlines_from (current ++ [c]) rest
  end.

Definition readlines (text : str) : list str := readlines_from [] text.

Section Printing.

Variable unicode_isalnum : N → bool.
(** [str(token)], the text that [print(token)] writes for a token. *)
Variable token_str : Token → str.

(** [for token in tokenize(line): print(token)]. The generator runs as
    the loop asks for tokens, so the tokens before a stray character are
    printed before the [ParseError] leaves the loop. *)
Definition print_tokens (line : str) : M unit :=
  let r := tokenize unicode_isalnum line in
  for_each r.1 (fun token => print (token_str token)) ;;
  match r.2 with
  | Some e => raise e
  | None => ret tt
  end.

(** The world in which tokens and an error [r] were printed and raised
    from the world [w]: the tokens on the standard output, one each, and
    the error, if there is one, raised after them. *)
Definition printed (w : world) (r : list Token * option exception)
    : world * result unit :=
  (mkWorld (files w) (stdout w ++ (token_str <$> r.1)) (stderr w),
   match r.2 with
   | Some e => Raises e
   | None => Returns tt
   end).

(** [with open(path) as f: for line in f.readlines(): print_tokens(line)] *)
Definition parse_file (path : str) : M unit :=
  text ← read_file path;
  for_each (readlines text) print_tokens.

(** The script: [sys.argv[1:]] and the text of the standard input. *)
Definition script (args : list str) (stdin : str) : M unit :=
  match args with
  | [] => for_each (readlines stdin) print_tokens
  | _ :: _ => for_each args parse_file
  end.

End Printing.
End ParserMain.

(* ===================================================================== *)
(** * Part II: properties                                                 *)
(* ===================================================================== *)

(** ** The permutation engine *)

Section OptionGroupsFacts.
Import Py OptionGroups.
Context {Param : Type}.
Implicit Types (l left right : list (list Param)) (required : list Param).
Implicit Types (t u a : list Param) (acc vs gs ys : list (list Param)).

(** *** The two generators in closed form *)

Lemma left_loop_closed gs a ys :
  foldl left_step (a, ys) gs
  = (concat (reverse gs) ++ a,
     ys ++ ((fun k => concat (reverse (take k gs)) ++ a) <$> seq 1 (length gs))).
Proof.
  revert a ys. induction gs as [|g gs IH]; intros a ys.
  - by rewrite /= app_nil_r.
  - cbn [foldl length seq]. rewrite IH /left_step fmap_cons.
    cbn [fst snd take]. rewrite !reverse_cons !concat_app.
    cbn [concat reverse]. rewrite !app_nil_r -!(assoc_L (++)).
    do 3 f_equal.
    rewrite -(fmap_S_seq 1) -list_fmap_compose. apply list_fmap_ext.
    intros _ k _.
    by rewrite /= reverse_cons concat_app /= app_nil_r -(assoc_L (++)).
Qed.

Lemma right_loop_closed gs a ys :
  foldl right_step (a, ys) gs
  = (a ++ concat gs,
     ys ++ ((fun k => a ++ concat (take k gs)) <$> seq 1 (length gs))).
Proof.
  revert a ys. induction gs as [|g gs IH]; intros a ys.
  - by rewrite /= !app_nil_r.
  - cbn [foldl length seq]. rewrite IH /right_step fmap_cons.
    cbn [fst snd take concat]. rewrite !app_nil_r -!(assoc_L (++)).
    do 3 f_equal.
    rewrite -(fmap_S_seq 1) -list_fmap_compose. apply list_fmap_ext.
    intros _ k _. by rewrite /= -(assoc_L (++)).
Qed.

Lemma permute_left_closed l :
  permute_left_option_groups l = left_variant l <$> seq 0 (S (length l)).
Proof.
  rewrite /permute_left_option_groups left_loop_closed /= length_reverse.
  rewrite /left_variant Nat.sub_0_r drop_all /=. f_equal.
  apply list_fmap_ext. intros i k Hk.
  apply lookup_seq in Hk as [-> Hk].
  rewrite app_nil_r take_reverse reverse_involutive. done.
Qed.

Lemma permute_right_closed l :
  permute_right_option_groups l = right_variant l <$> seq 0 (S (length l)).
Proof.
  by rewrite /permute_right_option_groups right_loop_closed.
Qed.

(** *** The stable sort by length *)

Lemma insert_by_len_perm t acc : insert_by_len t acc ≡ₚ t :: acc.
Proof.
  induction acc as [|u acc IH]; [done|].
  cbn [insert_by_len]. case_decide; [done|].
  by rewrite IH Permutation_swap.
Qed.

Lemma sort_by_len_perm acc : sort_by_len acc ≡ₚ acc.
Proof.
  induction acc as [|t acc IH]; [done|].
  change (sort_by_len (t :: acc)) with (insert_by_len t (sort_by_len acc)).
  by rewrite insert_by_len_perm IH.
Qed.

Lemma insert_by_len_sorted t acc :
  StronglySorted (fun a b => length a ≤ length b) acc →
  StronglySorted (fun a b => length a ≤ length b) (insert_by_len t acc).
Proof.
  induction 1 as [|u acc Hs IH Hu]; cbn [insert_by_len].
  - by repeat constructor.
  - case_decide as Hle.
    + constructor; [by constructor|].
      constructor; [done|]. eapply Forall_impl; [exact Hu|].
      intros v Hv. simpl in *. lia.
    + constructor; [done|].
      rewrite insert_by_len_perm. constructor; [lia|done].
Qed.

Lemma sort_by_len_sorted acc :
  StronglySorted (fun a b => length a ≤ length b) (sort_by_len acc).
Proof.
  induction acc as [|t acc IH]; [constructor|].
  by apply insert_by_len_sorted.
Qed.

Lemma sorted_distinct_strict acc :
  StronglySorted (fun a b => length a ≤ length b) acc →
  NoDup (length <$> acc) →
  StronglySorted (fun a b => length a < length b) acc.
Proof.
  induction 1 as [|u acc Hs IH Hu]; [constructor|].
  rewrite fmap_cons NoDup_cons. intros [Hnot Hnd].
  constructor; [by apply IH|].
  apply Forall_forall. intros v Hv.
  rewrite Forall_forall in Hu. specialize (Hu v Hv).
  assert (length u ≠ length v); [|lia].
  intros Heq. apply Hnot. rewrite Heq. by apply list_elem_of_fmap_2.
Qed.

(** *** The nested loop *)

Section Loop.
Variable m : nat.
Variable F : nat → nat → list Param.
Local Abbreviation visited := (OptionGroups.visited m F).

Lemma visited_init : visited 0 0 ([], ∅).
Proof.
  split; simpl.
  - intros k. split; [by intros ?%not_elem_of_empty|].
    intros (t & Ht & _). by apply elem_of_nil in Ht.
  - constructor.
  - intros t Ht. by apply elem_of_nil in Ht.
  - intros i j _ [?|[_ ?]]; simpl in *; lia.
Qed.

Lemma visited_step J I st :
  I < m → visited J I st → visited J (S I) (visit st (F I J)).
Proof.
  intros HI [Hcnt Hn Hf Ha]. rewrite /visit. case_decide as Hin.
  - split; [done|done|..].
    + intros t Ht. destruct (Hf t Ht) as (i & j & ? & Hb & ? & ?).
      exists i, j. split_and!; [done| |done|done].
      destruct Hb as [?|[? ?]]; [by left|right]; simpl in *; lia.
    + intros i j Hi [Hb|[Hj Hb]]; simpl in *.
      * apply Ha; [done|by left].
      * destruct (decide (i = I)) as [->|]; [subst j; by apply Hcnt|].
        apply Ha; [done|right]; simpl; lia.
  - assert (Hfresh : ∀ i j, i < m → before (j, i) (J, I) →
                     length (F i j) ≠ length (F I J)).
    { intros i j Hi Hb Heq. apply Hin, Hcnt. rewrite -Heq. by apply Ha. }
    split; simpl.
    + intros k. rewrite elem_of_union elem_of_singleton Hcnt. split.
      * intros [->|(t & Ht & <-)]; [exists (F I J)|exists t];
          (split; [rewrite elem_of_app list_elem_of_singleton; auto|done]).
      * intros (t & [Ht| ->%list_elem_of_singleton]%elem_of_app & <-); eauto.
    + rewrite fmap_app /= NoDup_app. split_and!; [done| |apply NoDup_singleton].
      intros k Hk ->%list_elem_of_singleton. apply Hin, Hcnt.
      apply list_elem_of_fmap in Hk as (t & ? & ?). eauto.
    + intros t [Ht| ->%list_elem_of_singleton]%elem_of_app.
      * destruct (Hf t Ht) as (i & j & ? & Hb & ? & ?).
        exists i, j. split_and!; [done| |done|done].
        destruct Hb as [?|[? ?]]; [by left|right]; simpl in *; lia.
      * exists I, J. split_and!; [done|right; simpl; lia|done|done].
    + intros i j Hi [Hb|[Hj Hb]]; simpl in *.
      * destruct (Ha i j Hi) as (t & ? & ?); [by left|].
        exists t. split; [rewrite elem_of_app list_elem_of_singleton; auto|done].
      * destruct (decide (i = I)) as [->|].
        { subst j. exists (F I J). split; [rewrite elem_of_app list_elem_of_singleton; auto|done]. }
        destruct (Ha i j Hi) as (t & ? & ?); [right; simpl; lia|].
        exists t. split; [rewrite elem_of_app list_elem_of_singleton; auto|done].
Qed.

Lemma visited_inner J st :
  visited J 0 st →
  visited (S J) 0 (foldl (fun st i => visit st (F i J)) st (seq 0 m)).
Proof.
  intros Hst.
  assert (Hk : ∀ k, k ≤ m →
            visited J k (foldl (fun st i => visit st (F i J)) st (seq 0 k))).
  { induction k as [|k IH]; intros Hk; [done|].
    rewrite seq_S foldl_snoc /=. apply visited_step; [lia|]. apply IH. lia. }
  destruct (Hk m (le_n _)) as [Hcnt Hn Hf Ha]. split; [done|done|..].
  - intros t Ht. destruct (Hf t Ht) as (i & j & ? & Hb & ? & ?).
    exists i, j. split_and!; [done| |done|done].
    destruct Hb as [?|[? ?]]; simpl in *; left; simpl; lia.
  - intros i j Hi [Hb|[? Hb]]; simpl in *; [|lia].
    apply Ha; [done|].
    destruct (decide (j = J)) as [->|]; [right|left]; simpl; lia.
Qed.

Lemma visited_outer n :
  visited n 0
    (foldl (fun st j => foldl (fun st i => visit st (F i j)) st (seq 0 m))
           ([], ∅) (seq 0 n)).
Proof.
  induction n as [|n IH]; [apply visited_init|].
  rewrite seq_S foldl_snoc /=. by apply visited_inner.
Qed.

End Loop.

Lemma foldl_ext_eq {A B} (f g : A → B → A) (xs : list B) (z : A) :
  (∀ z x, f z x = g z x) → foldl f z xs = foldl g z xs.
Proof.
  intros Hfg. revert z. induction xs as [|x xs IH]; intros z; [done|].
  by rewrite /= Hfg IH.
Qed.

(** The loops of [permute_optional_groups], as loops over the indices. *)
Lemma optional_groups_loops left required right :
  foldl (fun st rv =>
           foldl (fun st lv => visit st (lv ++ required ++ rv))
                 st (permute_left_option_groups left))
        ([], ∅) (permute_right_option_groups right)
  = foldl (fun st j =>
             foldl (fun st i => visit st (variant left required right i j))
                   st (seq 0 (S (length left))))
          ([], ∅) (seq 0 (S (length right))).
Proof.
  rewrite permute_right_closed foldl_fmap. apply foldl_ext_eq.
  intros st j. by rewrite permute_left_closed foldl_fmap.
Qed.

Lemma permute_optional_groups_returns left required right :
  ¬ (required = [] ∧ left ≠ []) →
  permute_optional_groups left required right
  = Returns (sort_by_len
      (foldl (fun st j =>
                foldl (fun st i => visit st (variant left required right i j))
                      st (seq 0 (S (length left))))
             ([], ∅) (seq 0 (S (length right)))).1).
Proof.
  intros Hok. rewrite /permute_optional_groups optional_groups_loops.
  destruct required as [|p required]; [|done].
  destruct left as [|g left]; [done|]. by destruct Hok.
Qed.

End OptionGroupsFacts.

(** C1. Whenever [permute_optional_groups] is given inputs it does not
    reject (it is not the case that [required] is empty while [left] is
    not), it returns a list of tuples that is strictly ascending in length
    (so sorted, with one tuple per length); each tuple is
    [left_variant + required + right_variant] for a suffix of the left
    groups and a prefix of the right groups, and is the first of its length
    in the order of the loops (right variants ascending, left variants
    ascending within each); and every length some combination has is the
    length of a tuple of the result. The variants are what the two
    generators yield, in their order. Moreover
    [permute_optional_groups([], [10], [[20],[30]])] is
    [((10,), (10,20), (10,20,30))]. *)
Theorem permute_optional_groups_spec :
  (∀ (Param : Type) (left : list (list Param)) (required : list Param)
     (right : list (list Param)),
     ¬ (required = [] ∧ left ≠ []) →
     ∃ res,
       OptionGroups.permute_optional_groups left required right = Py.Returns res
       ∧ StronglySorted (fun t u => length t < length u) res
       ∧ (∀ t, t ∈ res →
            ∃ i j, i ≤ length left ∧ j ≤ length right
              ∧ t = OptionGroups.variant left required right i j
              ∧ ∀ i' j', i' ≤ length left → j' ≤ length right →
                  j' < j ∨ (j' = j ∧ i' < i) →
                  length (OptionGroups.variant left required right i' j')
                  ≠ length t)
       ∧ (∀ i j, i ≤ length left → j ≤ length right →
            ∃ t, t ∈ res
              ∧ length t = length (OptionGroups.variant left required right i j))
       ∧ OptionGroups.permute_left_option_groups left
         = OptionGroups.left_variant left <$> seq 0 (S (length left))
       ∧ OptionGroups.permute_right_option_groups right
         = OptionGroups.right_variant right <$> seq 0 (S (length right)))
  ∧ OptionGroups.permute_optional_groups [] [10] [[20]; [30]]
    = Py.Returns [[10]; [10; 20]; [10; 20; 30]].
Proof.
  split; [|by vm_compute].
  intros Param left required right Hok.
  eexists. split; [by apply permute_optional_groups_returns|].
  pose proof (visited_outer (S (length left))
                (OptionGroups.variant left required right) (S (length right)))
    as [_ Hn Hf Ha].
  split_and!.
  - apply sorted_distinct_strict; [apply sort_by_len_sorted|].
    by rewrite sort_by_len_perm.
  - intros t Ht. rewrite sort_by_len_perm in Ht.
    destruct (Hf t Ht) as (i & j & Hi & Hb & -> & Hfirst).
    exists i, j. split_and!; [lia| |done|].
    + destruct Hb as [?|[? ?]]; simpl in *; lia.
    + intros i' j' Hi' _ Hlex. apply Hfirst; [lia|exact Hlex].
  - intros i j Hi Hj.
    destruct (Ha i j) as (t & Ht & Hlen); [lia|left; simpl; lia|].
    exists t. by rewrite sort_by_len_perm.
  - apply permute_left_closed.
  - apply permute_right_closed.
Qed.

(** An accepted input with one left and two right groups. *)
Lemma permute_optional_groups_spec_witness :
  ∃ res,
    OptionGroups.permute_optional_groups [[1]] [10] [[20]; [30]] = Py.Returns res
    ∧ StronglySorted (fun t u => length t < length u) res
    ∧ (∀ t, t ∈ res →
         ∃ i j, i ≤ 1 ∧ j ≤ 2
           ∧ t = OptionGroups.variant [[1]] [10] [[20]; [30]] i j
           ∧ ∀ i' j', i' ≤ 1 → j' ≤ 2 →
               j' < j ∨ (j' = j ∧ i' < i) →
               length (OptionGroups.variant [[1]] [10] [[20]; [30]] i' j')
               ≠ length t)
    ∧ (∀ i j, i ≤ 1 → j ≤ 2 →
         ∃ t, t ∈ res
           ∧ length t = length (OptionGroups.variant [[1]] [10] [[20]; [30]] i j))
    ∧ OptionGroups.permute_left_option_groups [[1]]
      = OptionGroups.left_variant [[1]] <$> seq 0 2
    ∧ OptionGroups.permute_right_option_groups [[20]; [30]]
      = OptionGroups.right_variant [[20]; [30]] <$> seq 0 3.
Proof.
  apply (proj1 permute_optional_groups_spec nat [[1]] [10] [[20]; [30]]).
  intros [Hreq _]. discriminate Hreq.
Defined.

(** C2. [permute_optional_groups] raises its [ValueError] exactly when
    [required] is empty while [left] is not, and returns a result in every
    other case; [permute_optional_groups([[1],[2],[3]], [], [[4],[5],[6]])]
    raises it. *)
Theorem permute_optional_groups_rejects :
  (∀ (Param : Type) (left : list (list Param)) (required : list Param)
     (right : list (list Param)),
     ((required = [] ∧ left ≠ []) ↔
        OptionGroups.permute_optional_groups left required right
        = Py.Raises (Py.Exc Py.ValueError
            [Py.VStr (Py.of_string "required is empty but left is not")]))
     ∧ (¬ (required = [] ∧ left ≠ []) ↔
        ∃ res, OptionGroups.permute_optional_groups left required right
               = Py.Returns res))
  ∧ OptionGroups.permute_optional_groups [[1]; [2]; [3]] [] [[4]; [5]; [6]]
    = Py.Raises (Py.Exc Py.ValueError
        [Py.VStr (Py.of_string "required is empty but left is not")]).
Proof.
  split; [|done].
  intros Param left required right.
  rewrite /OptionGroups.permute_optional_groups.
  destruct required as [|p required], left as [|g left].
  - split; split; [by intros [_ ?]|done|by eexists|by intros _ [_ ?]].
  - split; split; [done|done| |by intros [? [=]]].
    intros Hno. by destruct Hno.
  - split; split; [by intros [? _]|done|by eexists|by intros _ [? _]].
  - split; split; [by intros [? _]|done|by eexists|by intros _ [? _]].
Qed.

(** C3. [permute_left_option_groups] yields the empty tuple first and one
    tuple more per group; each later tuple is the next group, taken from the
    end of the input backward, put in front of the tuple yielded before it.
    So the [k]-th tuple is the concatenation of the last [k] groups, and
    for [[(1,), (2,), (3,)]] the tuples are [()], [(3,)], [(2, 3)],
    [(1, 2, 3)], in this order. *)
Theorem permute_left_option_groups_yields :
  (∀ (Param : Type) (l : list (list Param)),
     OptionGroups.permute_left_option_groups l !! 0 = Some []
     ∧ length (OptionGroups.permute_left_option_groups l) = S (length l)
     ∧ (∀ k group previous,
          reverse l !! k = Some group →
          OptionGroups.permute_left_option_groups l !! k = Some previous →
          OptionGroups.permute_left_option_groups l !! S k
          = Some (group ++ previous))
     ∧ OptionGroups.permute_left_option_groups l
       = (fun k => concat (drop (length l - k) l)) <$> seq 0 (S (length l)))
  ∧ OptionGroups.permute_left_option_groups [[1]; [2]; [3]]
    = [[]; [3]; [2; 3]; [1; 2; 3]].
Proof.
  split; [|done].
  intros Param l. rewrite permute_left_closed.
  split_and!; [|by rewrite length_fmap length_seq| |done].
  - rewrite /OptionGroups.left_variant /= Nat.sub_0_r drop_all. done.
  - intros k group previous Hg.
    assert (Hk : k < length l).
    { apply lookup_lt_Some in Hg. by rewrite length_reverse in Hg. }
    rewrite !list_lookup_fmap.
    rewrite (lookup_seq_lt 0 (S (length l)) k); [|lia].
    rewrite (lookup_seq_lt 0 (S (length l)) (S k)); [|lia].
    rewrite /OptionGroups.left_variant /=. intros [= <-]. f_equal.
    apply reverse_lookup_Some in Hg as [Hg _].
    rewrite (drop_S _ _ _ Hg) /=.
    do 3 f_equal. lia.
Qed.

(** C10. With no optional group on either side, [permute_optional_groups]
    returns the single tuple of the required parameters; with nothing
    required either, it returns the single empty tuple. *)
Theorem permute_optional_groups_required_only :
  (∀ (Param : Type) (required : list Param),
     OptionGroups.permute_optional_groups [] required []
     = Py.Returns [required])
  ∧ OptionGroups.permute_optional_groups (Param := nat) [] [] []
    = Py.Returns [[]].
Proof.
  assert (Hgen : ∀ (Param : Type) (required : list Param),
             OptionGroups.permute_optional_groups [] required []
             = Py.Returns [required]).
  { intros Param required.
    assert (OptionGroups.visit ([], ∅) ([] ++ required ++ [])
            = ([required], {[ length required ]} ∪ ∅)) as Hvisit.
    { rewrite /OptionGroups.visit /= app_nil_r.
      case_decide as Hin; [by apply not_elem_of_empty in Hin|done]. }
    rewrite /OptionGroups.permute_optional_groups.
    cbn [OptionGroups.permute_left_option_groups
           OptionGroups.permute_right_option_groups foldl reverse rev_append snd].
    rewrite Hvisit. by destruct required. }
  split; [exact Hgen|apply Hgen].
Qed.

(** ** The tokenizer *)

Section LexerFacts.
Import Py Lexer.
Variable unicode_isalnum : N → bool.
Local Abbreviation regex_match := (Lexer.regex_match unicode_isalnum).
Local Abbreviation finditer := (Lexer.finditer unicode_isalnum).
Local Abbreviation is_word := (Lexer.is_word unicode_isalnum).
Local Abbreviation never_matches := (Lexer.never_matches unicode_isalnum).
Implicit Types (s pre post v : str) (c x : N) (k : token_kind).

Lemma take_while_stop (p : N → bool) s x post :
  p x = false → take_while p (s ++ x :: post) = take_while p s.
Proof.
  intros Hx. induction s as [|c s IH]; simpl; [by rewrite Hx|].
  destruct (p c); by rewrite ?IH.
Qed.

Lemma take_while_length (p : N → bool) s : length (take_while p s) ≤ length s.
Proof. induction s as [|c s IH]; simpl; [done|]. destruct (p c); simpl; lia. Qed.

Lemma nonempty_run_stop (p : N → bool) s x post :
  p x = false → nonempty_run p (s ++ x :: post) = nonempty_run p s.
Proof. intros Hx. by rewrite /nonempty_run take_while_stop. Qed.

Lemma nonempty_run_bounds (p : N → bool) s n :
  nonempty_run p s = Some n → 1 ≤ n ≤ length s.
Proof.
  rewrite /nonempty_run. pose proof (take_while_length p s).
  destruct (length (take_while p s)); intros [= <-]. lia.
Qed.

Lemma nonempty_run_none (p : N → bool) c s :
  nonempty_run p (c :: s) = None → p c = false.
Proof. rewrite /nonempty_run /=. by destruct (p c). Qed.

Lemma last_index_lt c s i : last_index c s = Some i → i < length s.
Proof.
  revert i. induction s as [|d s IH]; intros i; simpl; [done|].
  destruct (last_index c s) as [j|].
  - intros [= <-]. specialize (IH j eq_refl). lia.
  - destruct (d =? c)%N; intros [= <-]. lia.
Qed.

Lemma never_matches_spec x :
  never_matches x = true →
  is_dot x = true ∧ is_word x = false
  ∧ x ≠ chr "." ∧ x ≠ chr " " ∧ x ≠ chr "=" ∧ x ≠ chr "("
  ∧ x ≠ chr "-" ∧ x ≠ chr ">".
Proof.
  rewrite /Lexer.never_matches !andb_true_iff negb_true_iff bool_decide_eq_true.
  intros [[? ?] Hnot]. split_and!; [done|done|..];
    intros ->; apply Hnot; by apply (bool_decide_unpack _).
Qed.

(** *** One position: what the alternatives see of the text *)

Lemma match_ARROW_stop c pre x post :
  x ≠ chr ">" → match_ARROW (c :: pre ++ x :: post) = match_ARROW (c :: pre).
Proof.
  intros Hx. rewrite /match_ARROW /starts_with.
  destruct pre as [|d pre]; [|done].
  change (take _ (c :: [] ++ x :: post)) with [c; x].
  rewrite (bool_decide_eq_false_2 ([c; x] = _));
    [|intros [= _ ->]; by apply Hx].
  rewrite bool_decide_eq_false_2; [done|by intros [=]].
Qed.

Lemma match_CLONE_stop c pre x post :
  match_CLONE (c :: pre ++ x :: post) = match_CLONE (c :: pre).
Proof. done. Qed.

Lemma match_ARGS_other c s : c ≠ chr "(" → match_ARGS (c :: s) = None.
Proof. intros Hc. rewrite /match_ARGS. by apply N.eqb_neq in Hc as ->. Qed.

Lemma regex_match_stray x post :
  never_matches x = true → regex_match (x :: post) = Some (MISMATCH, 1).
Proof.
  intros (Hd & Hw & Hdot & Hsp & Heq & Hpar & Hminus & _)%never_matches_spec.
  rewrite /Lexer.regex_match /token_specification /first_alternative.
  rewrite match_ARGS_other; [|done].
  rewrite /match_ARROW /match_CLONE /starts_with /match_WORD /match_SPACE
    /nonempty_run /match_MISMATCH /= Hw Hd.
  apply N.eqb_neq in Hdot as ->. apply N.eqb_neq in Hsp as ->.
  rewrite !bool_decide_eq_false_2; [done|..].
  - intros [= ->]. by apply Heq.
  - destruct post; intros [= -> ?]; by apply Hminus.
Qed.

Lemma regex_match_bounds s k n :
  regex_match s = Some (k, n) → 1 ≤ n ≤ length s.
Proof.
  rewrite /Lexer.regex_match /token_specification /first_alternative.
  destruct (match_ARROW s) as [n1|] eqn:H1.
  { intros [= _ <-]. revert H1. rewrite /match_ARROW /starts_with.
    case_bool_decide as Hs; intros [= <-].
    apply (f_equal length) in Hs. rewrite length_take in Hs.
    change (length (of_string "->")) with 2 in Hs. lia. }
  destruct (match_CLONE s) as [n2|] eqn:H2.
  { intros [= _ <-]. revert H2. rewrite /match_CLONE /starts_with.
    case_bool_decide as Hs; intros [= <-].
    apply (f_equal length) in Hs. rewrite length_take in Hs.
    change (length (of_string "=")) with 1 in Hs. lia. }
  destruct (match_ARGS s) as [n3|] eqn:H3.
  { intros [= _ <-]. revert H3. rewrite /match_ARGS.
    destruct s as [|c s]; [done|]. destruct (c =? chr "(")%N; [|done].
    destruct (last_index _ _) as [i|] eqn:Hi; intros [= <-].
    apply last_index_lt in Hi.
    pose proof (take_while_length is_dot s). simpl. lia. }
  destruct (match_WORD unicode_isalnum s) as [n4|] eqn:H4.
  { intros [= _ <-]. by eapply nonempty_run_bounds. }
  destruct (match_SPACE s) as [n5|] eqn:H5.
  { intros [= _ <-]. by eapply nonempty_run_bounds. }
  destruct (match_MISMATCH s) as [n6|] eqn:H6; [|done].
  intros [= _ <-]. revert H6. rewrite /match_MISMATCH.
  destruct s as [|c s]; [done|]. destruct (is_dot c); intros [= <-].
  simpl. lia.
Qed.

(** *** The loop over the matches *)

Lemma tokens_of_mismatch (ms rest : list (token_kind * str)) v :
  tokens_of (ms ++ (MISMATCH, v) :: rest)
  = ((tokens_of ms).1,
     Some (default (Exc ParseError [VStr v]) (tokens_of ms).2)).
Proof.
  induction ms as [|[k w] ms IH]; [done|].
  destruct k; simpl; by rewrite ?IH.
Qed.

Lemma tokens_of_kinds (ms : list (token_kind * str)) :
  Forall (fun t => kind t ≠ SPACE ∧ kind t ≠ MISMATCH) (tokens_of ms).1.
Proof.
  induction ms as [|[k w] ms IH]; [constructor|].
  destruct k; simpl; try done; by constructor.
Qed.

Lemma tokens_of_error (ms : list (token_kind * str)) e :
  (tokens_of ms).2 = Some e →
  ∃ v, (MISMATCH, v) ∈ ms ∧ e = Exc ParseError [VStr v].
Proof.
  induction ms as [|[k w] ms IH]; [done|].
  destruct k; simpl; try (intros [v [? ?]]%IH; exists v; split; [by right|done]).
  intros [= <-]. exists w. split; [by left|done].
Qed.

Lemma regex_match_mismatch s n :
  regex_match s = Some (MISMATCH, n) →
  ∃ c rest, s = c :: rest ∧ n = 1 ∧ is_dot c = true ∧ is_word c = false
    ∧ c ≠ chr "." ∧ c ≠ chr " " ∧ c ≠ chr "=".
Proof.
  rewrite /Lexer.regex_match /token_specification /first_alternative.
  destruct (match_ARROW s); [done|].
  destruct (match_CLONE s) eqn:Hclone; [done|].
  destruct (match_ARGS s); [done|].
  destruct (match_WORD unicode_isalnum s) eqn:Hword; [done|].
  destruct (match_SPACE s) eqn:Hspace; [done|].
  destruct s as [|c rest]; [done|].
  rewrite /match_MISMATCH. destruct (is_dot c) eqn:Hd; [|done].
  intros [= <-]. exists c, rest.
  apply nonempty_run_none in Hword, Hspace.
  apply orb_false_iff in Hword as [? ?%N.eqb_neq]. apply N.eqb_neq in Hspace.
  split_and!; try done.
  intros ->. revert Hclone. by rewrite /match_CLONE /starts_with.
Qed.

Lemma finditer_mismatch s skip v :
  (MISMATCH, v) ∈ finditer skip s →
  ∃ c, v = [c] ∧ c ∈ s ∧ is_dot c = true ∧ is_word c = false
    ∧ c ≠ chr "." ∧ c ≠ chr " " ∧ c ≠ chr "=".
Proof.
  revert skip. induction s as [|c s IH]; intros skip; [by intros ?%elem_of_nil|].
  assert (Hrec : ∀ skip', (MISMATCH, v) ∈ finditer skip' s →
            ∃ c', v = [c'] ∧ c' ∈ c :: s ∧ is_dot c' = true ∧ is_word c' = false
              ∧ c' ≠ chr "." ∧ c' ≠ chr " " ∧ c' ≠ chr "=").
  { intros skip' (c' & ? & ? & ?)%IH. exists c'. split; [done|]. split; [by right|done]. }
  destruct skip as [|skip]; [|apply Hrec].
  cbn [Lexer.finditer].
  destruct (regex_match (c :: s)) as [[k n]|] eqn:Hm; [|apply Hrec].
  intros [[= <- ->]|Hin]%elem_of_cons; [|by eapply Hrec].
  apply regex_match_mismatch in Hm as (c' & rest & [= <- <-] & -> & ?).
  exists c. split; [done|]. split; [by left|done].
Qed.

End LexerFacts.

(** C4. The line [foo(bar)->baz=1] is tokenized, without failure and
    without SPACE tokens, into WORD [foo], ARGS [(bar)], ARROW [->],
    WORD [baz], CLONE [=], WORD [1]. The alternatives are tried in the
    order ARROW, CLONE, ARGS, WORD, SPACE, MISMATCH, and ARGS runs from the
    opening parenthesis to the last closing one on the line, as on
    [f(a)(b)]. *)
Theorem tokenize_example (unicode_isalnum : N → bool) :
  Lexer.tokenize unicode_isalnum (Py.of_string "foo(bar)->baz=1")
  = ([ Lexer.mkToken Lexer.WORD (Py.of_string "foo");
       Lexer.mkToken Lexer.ARGS (Py.of_string "(bar)");
       Lexer.mkToken Lexer.ARROW (Py.of_string "->");
       Lexer.mkToken Lexer.WORD (Py.of_string "baz");
       Lexer.mkToken Lexer.CLONE (Py.of_string "=");
       Lexer.mkToken Lexer.WORD (Py.of_string "1") ], None)
  ∧ fst <$> Lexer.token_specification unicode_isalnum
    = [ Lexer.ARROW; Lexer.CLONE; Lexer.ARGS; Lexer.WORD; Lexer.SPACE;
        Lexer.MISMATCH ]
  ∧ Lexer.tokenize unicode_isalnum (Py.of_string "f(a)(b)")
    = ([ Lexer.mkToken Lexer.WORD (Py.of_string "f");
         Lexer.mkToken Lexer.ARGS (Py.of_string "(a)(b)") ], None).
Proof. split_and!; by vm_compute. Qed.

(** ** The version comparator *)

Section VersionFacts.
Import Py Version.

Lemma zip_longest_nil_r (a : list Z) (fill : Z) :
  zip_longest a [] fill = (fun x => (x, fill)) <$> a.
Proof. induction a as [|x a IH]; [done|]. by rewrite /= IH. Qed.

Lemma compare_pair_swap (x y r r' : Z) :
  r' = (- r)%Z →
  (if (y <? x)%Z then (-1)%Z else if (y >? x)%Z then 1%Z else r')
  = (- (if (x <? y)%Z then (-1)%Z else if (x >? y)%Z then 1%Z else r))%Z.
Proof.
  intros ->. rewrite !Z.gtb_ltb.
  destruct (Z.ltb_spec y x), (Z.ltb_spec x y); lia.
Qed.

Lemma compare_pairs_swap (a b : list Z) :
  compare_pairs (zip_longest b a 0) = (- compare_pairs (zip_longest a b 0))%Z.
Proof.
  revert b. induction a as [|x a IH]; intros b.
  - rewrite zip_longest_nil_r /=.
    induction b as [|y b IHb]; [done|].
    cbn [fmap list_fmap compare_pairs]. by apply compare_pair_swap.
  - destruct b as [|y b]; cbn [zip_longest fmap list_fmap compare_pairs].
    + apply compare_pair_swap. rewrite -IH. done.
    + apply compare_pair_swap, IH.
Qed.

Lemma compare_pairs_range (it : list (Z * Z)) :
  compare_pairs it ∈ [(-1)%Z; 0%Z; 1%Z].
Proof.
  induction it as [|[x y] it IH]; simpl.
  - apply list_elem_of_In. simpl. tauto.
  - destruct (x <? y)%Z; [apply list_elem_of_In; simpl; tauto|].
    destruct (x >? y)%Z; [apply list_elem_of_In; simpl; tauto|done].
Qed.

End VersionFacts.

(** C6. ["1.4b3"] splits into [(1, 4, -2, 3)] and ["1.4.0"] into
    [(1, 4, 0)]: a letter [a], [b] or [c] closes the number before it and
    adds [-3], [-2] or [-1] as a component of its own, before the number
    that follows. The shorter tuple is padded with zeros, and the comparator
    returns [-1], the third pair being [(-2, 0)]. *)
Theorem version_comparator_example
    (unicode_isdigit : N → bool) (unicode_decimal : N → option Z) :
  Version._version_splitter unicode_isdigit unicode_decimal (Py.of_string "1.4b3")
  = Py.Returns [1; 4; -2; 3]%Z
  ∧ Version._version_splitter unicode_isdigit unicode_decimal (Py.of_string "1.4.0")
    = Py.Returns [1; 4; 0]%Z
  ∧ Version.zip_longest [1; 4; -2; 3]%Z [1; 4; 0]%Z 0
    = [(1, 1); (4, 4); (-2, 0); (3, 0)]%Z
  ∧ Version.version_comparator unicode_isdigit unicode_decimal
      (Py.of_string "1.4b3") (Py.of_string "1.4.0")
    = Py.Returns (-1)%Z
  ∧ Version._version_splitter unicode_isdigit unicode_decimal (Py.of_string "2a1")
    = Py.Returns [2; -3; 1]%Z
  ∧ Version._version_splitter unicode_isdigit unicode_decimal (Py.of_string "2c1")
    = Py.Returns [2; -1; 1]%Z.
Proof. split_and!; by vm_compute. Qed.

(** C9. For two version strings that both split, comparing them in the
    other order negates the result, and the result is one of -1, 0, 1; a
    version string that splits compares equal to itself. *)
Theorem version_comparator_antisymmetric
    (unicode_isdigit : N → bool) (unicode_decimal : N → option Z)
    (version1 version2 : Py.str) (t1 t2 : list Z) :
  Version._version_splitter unicode_isdigit unicode_decimal version1 = Py.Returns t1 →
  Version._version_splitter unicode_isdigit unicode_decimal version2 = Py.Returns t2 →
  ∃ r : Z,
    Version.version_comparator unicode_isdigit unicode_decimal version1 version2
    = Py.Returns r
    ∧ Version.version_comparator unicode_isdigit unicode_decimal version2 version1
      = Py.Returns (- r)%Z
    ∧ r ∈ [(-1)%Z; 0%Z; 1%Z]
    ∧ Version.version_comparator unicode_isdigit unicode_decimal version1 version1
      = Py.Returns 0%Z.
Proof.
  intros H1 H2. rewrite /Version.version_comparator H1 H2 /=.
  eexists. split_and!; [done| |apply compare_pairs_range|].
  - by rewrite compare_pairs_swap.
  - pose proof (compare_pairs_swap t1 t1). f_equal. lia.
Qed.

(** ["1.4b3"] against ["1.4.0"], and back. *)
Lemma version_comparator_antisymmetric_witness :
  ∃ r : Z,
    Version.version_comparator Version.no_unicode_digit Version.no_unicode_decimal
      (Py.of_string "1.4b3") (Py.of_string "1.4.0") = Py.Returns r
    ∧ Version.version_comparator Version.no_unicode_digit Version.no_unicode_decimal
        (Py.of_string "1.4.0") (Py.of_string "1.4b3") = Py.Returns (- r)%Z
    ∧ r ∈ [(-1)%Z; 0%Z; 1%Z]
    ∧ Version.version_comparator Version.no_unicode_digit Version.no_unicode_decimal
        (Py.of_string "1.4b3") (Py.of_string "1.4b3") = Py.Returns 0%Z.
Proof.
  apply (version_comparator_antisymmetric _ _ _ _ [1; 4; -2; 3]%Z [1; 4; 0]%Z).
  - vm_compute. reflexivity.
  - vm_compute. reflexivity.
Defined.

(** ** The driver *)

Section CliFacts.
Import Py Cli.
Variable splitext : str → str * str.
Variable path_join : str → str → str.
Variable normpath : str → str.
Variable find_start : Language → str → bool.
Variable clinic_parse : Language → bool → str → bool → str → M str.
Variable write_file : str → str → M unit.
Variable report : exception → str.
Variable parse_args : list str → M Namespace.
Variable print_converters : M unit.
Variable os_walk :
  str → (list str → list str) → (str → list str → M unit) → M unit.

Local Abbreviation parse_file :=
  (Cli.parse_file splitext find_start clinic_parse write_file).
Local Abbreviation run_clinic :=
  (Cli.run_clinic splitext path_join normpath find_start clinic_parse
     write_file print_converters os_walk).
Local Abbreviation main :=
  (Cli.main splitext path_join normpath find_start clinic_parse write_file
     report parse_args print_converters os_walk).

Lemma extensions_nonempty : extensions !! ([] : str) = None.
Proof. by vm_compute. Qed.

Lemma parse_file_unknown_extension filename limited_capi output verify w :
  extensions !! drop 1 (splitext filename).2 = None →
  ∃ e, parse_file filename limited_capi output verify w = (w, Raises e)
       ∧ exc_type e = ClinicError.
Proof.
  intros Hext. rewrite /Cli.parse_file.
  destruct (drop 1 (splitext filename).2) as [|c extension]; [by eexists|].
  rewrite Hext. by eexists.
Qed.

Lemma parse_file_fast_path filename limited_capi output verify w raw language_class :
  extensions !! drop 1 (splitext filename).2 = Some language_class →
  files w !! filename = Some raw →
  find_start (language_class filename) raw = false →
  parse_file filename limited_capi output verify w = (w, Returns tt).
Proof.
  intros Hext Hraw Hfind. rewrite /Cli.parse_file.
  destruct (drop 1 (splitext filename).2) as [|c extension].
  { by rewrite extensions_nonempty in Hext. }
  rewrite Hext /mbind /M_bind /bind /read_file Hraw Hfind. done.
Qed.

(** C8, as the code has it. Let the text of an input file contain no
    start marker. Then [parse_file] leaves the world as it found it: it
    writes nothing, whatever [Clinic.parse] and [write_file] would do.
    When the extension of the file name is one of [extensions],
    [parse_file] returns at the check for markers; when it is not,
    [parse_file] raises a [ClinicError] before it reads the file. *)
Theorem parse_file_no_marker filename limited_capi output verify w raw :
  files w !! filename = Some raw →
  (∀ language, find_start language raw = false) →
  (parse_file filename limited_capi output verify w).1 = w
  ∧ (is_Some (extensions !! drop 1 (splitext filename).2) →
     parse_file filename limited_capi output verify w = (w, Returns tt))
  ∧ (extensions !! drop 1 (splitext filename).2 = None →
     ∃ e, parse_file filename limited_capi output verify w = (w, Raises e)
          ∧ exc_type e = ClinicError).
Proof.
  intros Hraw Hfind.
  assert (Hknown : ∀ language_class,
            extensions !! drop 1 (splitext filename).2 = Some language_class →
            parse_file filename limited_capi output verify w = (w, Returns tt)).
  { intros language_class Hext. by eapply parse_file_fast_path. }
  split_and!.
  - destruct (extensions !! drop 1 (splitext filename).2)
      as [language_class|] eqn:Hext.
    + by rewrite (Hknown language_class).
    + destruct (parse_file_unknown_extension filename limited_capi output
                  verify w Hext) as (e & -> & _). done.
  - intros [language_class Hext]. by apply (Hknown language_class).
  - apply parse_file_unknown_extension.
Qed.


End CliFacts.


(** A C file without markers: [parse_file] returns and the world is the
    same. *)
Lemma parse_file_no_marker_witness :
  Cli.sample_parse_file (Py.of_string "module.c") false None true Cli.sample_world
  = (Cli.sample_world, Py.Returns tt).
Proof.
  refine (proj1 (proj2 (parse_file_no_marker Cli.posix_splitext
                          Cli.sample_find_start _ _
                          (Py.of_string "module.c") false None true
                          Cli.sample_world (Py.of_string "int x;") _ _)) _).
  - vm_compute. reflexivity.
  - intros language. vm_compute. reflexivity.
  - eexists. vm_compute. reflexivity.
Defined.

(** A file without markers and without extension: [parse_file] does not
    return, it raises. *)
Lemma parse_file_no_extension_raises :
  Cli.files Cli.sample_world !! Py.of_string "README"
  = Some (Py.of_string "plain text")
  ∧ Cli.sample_find_start (Cli.CLanguage (Py.of_string "README"))
      (Py.of_string "plain text") = false
  ∧ Cli.sample_parse_file (Py.of_string "README") false None true
      Cli.sample_world
    = (Cli.sample_world,
       Py.Raises (Py.Exc Py.ClinicError
         [Py.VStr (Py.of_string "Can't extract file type for file ");
          Py.VStr (Py.of_string "README")])).
Proof. split_and!; by vm_compute. Qed.

(* ===================================================================== *)
(** * Part III: further properties of the same code                       *)
(* ===================================================================== *)

(** ** More on the permutation engine *)

Section OptionGroupsMore.
Import Py OptionGroups.
Context {Param : Type}.
Implicit Types (l left right : list (list Param)) (required : list Param).
Implicit Types (t u : list Param) (acc res : list (list Param)).

Lemma concat_take_drop_length l k :
  length (concat l) = length (concat (take k l)) + length (concat (drop k l)).
Proof. by rewrite -length_app -concat_app take_drop. Qed.

Lemma left_variant_full left : left_variant left (length left) = concat left.
Proof. by rewrite /left_variant Nat.sub_diag. Qed.

Lemma right_variant_full right : right_variant right (length right) = concat right.
Proof. by rewrite /right_variant firstn_all. Qed.

Lemma left_variant_length left i :
  length (left_variant left i) ≤ length (concat left).
Proof.
  rewrite /left_variant (concat_take_drop_length left (length left - i)). lia.
Qed.

Lemma right_variant_length right j :
  length (right_variant right j) ≤ length (concat right).
Proof. rewrite /right_variant (concat_take_drop_length right j). lia. Qed.

Lemma left_variant_whole left i :
  length (left_variant left i) = length (concat left) →
  left_variant left i = concat left.
Proof.
  rewrite /left_variant (concat_take_drop_length left (length left - i)).
  intros Hlen.
  transitivity (concat (take (length left - i) left ++ drop (length left - i) left));
    [|by rewrite take_drop].
  rewrite concat_app.
  destruct (concat (take (length left - i) left)); [done|simpl in Hlen; lia].
Qed.

Lemma right_variant_whole right j :
  length (right_variant right j) = length (concat right) →
  right_variant right j = concat right.
Proof.
  rewrite /right_variant (concat_take_drop_length right j).
  intros Hlen.
  transitivity (concat (take j right ++ drop j right)); [|by rewrite take_drop].
  rewrite concat_app.
  destruct (concat (drop j right)); [by rewrite app_nil_r|simpl in Hlen; lia].
Qed.

Lemma variant_length left required right i j :
  length (variant left required right i j)
  = length (left_variant left i) + length required
    + length (right_variant right j).
Proof. rewrite /variant !length_app. lia. Qed.

Lemma variant_zero left required right :
  variant left required right 0 0 = required.
Proof.
  by rewrite /variant /left_variant /right_variant Nat.sub_0_r drop_all
       /= app_nil_r.
Qed.

Lemma strictly_sorted_head res t x rest :
  res = x :: rest →
  StronglySorted (fun a b => length a < length b) res →
  t ∈ res → (∀ u, u ∈ res → length t ≤ length u) → x = t.
Proof.
  intros -> Hs Ht Hmin. apply StronglySorted_inv in Hs as [_ Hx].
  apply elem_of_cons in Ht as [->|Ht]; [done|].
  rewrite Forall_forall in Hx. specialize (Hx t Ht).
  specialize (Hmin x (list_elem_of_here _ _)). lia.
Qed.

Lemma strictly_sorted_last res t :
  StronglySorted (fun a b => length a < length b) res →
  t ∈ res → (∀ u, u ∈ res → length u ≤ length t) →
  ∃ front, res = front ++ [t].
Proof.
  intros Hs Ht Hmax.
  destruct (list_elem_of_split _ _ Ht) as (front & back & ->).
  destruct back as [|u back]; [by exists front|].
  apply StronglySorted_app_1_r, StronglySorted_inv in Hs as [_ Hx].
  apply Forall_cons in Hx as [Hu _].
  assert (length u ≤ length t); [|lia].
  apply Hmax. rewrite elem_of_app. right. right. by left.
Qed.

End OptionGroupsMore.

(** X1. [permute_right_option_groups] yields the empty tuple first and one
    tuple more per group, each the tuple before it with the next group of
    the input appended: the [k]-th tuple is the concatenation of the first
    [k] groups. For [[(1,), (2,), (3,)]] these are [()], [(1,)], [(1, 2)],
    [(1, 2, 3)]. *)
Theorem permute_right_option_groups_yields :
  (∀ (Param : Type) (l : list (list Param)),
     OptionGroups.permute_right_option_groups l !! 0 = Some []
     ∧ length (OptionGroups.permute_right_option_groups l) = S (length l)
     ∧ (∀ k group previous,
          l !! k = Some group →
          OptionGroups.permute_right_option_groups l !! k = Some previous →
          OptionGroups.permute_right_option_groups l !! S k
          = Some (previous ++ group))
     ∧ OptionGroups.permute_right_option_groups l
       = (fun k => concat (take k l)) <$> seq 0 (S (length l)))
  ∧ OptionGroups.permute_right_option_groups [[1]; [2]; [3]]
    = [[]; [1]; [1; 2]; [1; 2; 3]].
Proof.
  split; [|done].
  intros Param l. rewrite permute_right_closed.
  split_and!; [done|by rewrite length_fmap length_seq| |done].
  intros k group previous Hg.
  assert (Hk : k < length l) by by eapply lookup_lt_Some.
  rewrite !list_lookup_fmap.
  rewrite (lookup_seq_lt 0 (S (length l)) k); [|lia].
  rewrite (lookup_seq_lt 0 (S (length l)) (S k)); [|lia].
  rewrite /OptionGroups.right_variant /=. intros [= <-]. f_equal.
  by rewrite (take_S_r _ _ _ Hg) concat_app /= app_nil_r.
Qed.

(** X2. The result of [permute_optional_groups], when there is one,
    begins with the tuple of the required parameters alone, which is
    strictly shorter than every other tuple, and ends with the tuple of
    all parameters: every left group, the required parameters, every right
    group, in the order of declaration. *)
Theorem permute_optional_groups_ends
    (Param : Type) (left : list (list Param)) (required : list Param)
    (right : list (list Param)) :
  ¬ (required = [] ∧ left ≠ []) →
  ∃ res,
    OptionGroups.permute_optional_groups left required right = Py.Returns res
    ∧ (∃ rest, res = required :: rest
         ∧ Forall (fun t => length required < length t) rest)
    ∧ (∃ front, res = front ++ [concat left ++ required ++ concat right]
         ∧ Forall (fun t => length t
                            < length (concat left ++ required ++ concat right))
                  front).
Proof.
  intros Hok. eexists. split; [by apply permute_optional_groups_returns|].
  pose proof (visited_outer (S (length left))
                (OptionGroups.variant left required right) (S (length right)))
    as [_ Hn Hf Ha].
  set (acc := (foldl _ _ _).1) in *.
  assert (Hs : StronglySorted (fun a b : list Param => length a < length b)
                 (OptionGroups.sort_by_len acc)).
  { apply sorted_distinct_strict; [apply sort_by_len_sorted|].
    by rewrite sort_by_len_perm. }
  assert (Hvar : ∀ t, t ∈ OptionGroups.sort_by_len acc →
            ∃ i j, t = OptionGroups.variant left required right i j).
  { intros t Ht. rewrite sort_by_len_perm in Ht.
    destruct (Hf t Ht) as (i & j & _ & _ & -> & _). by exists i, j. }
  assert (Hreq : required ∈ OptionGroups.sort_by_len acc).
  { rewrite sort_by_len_perm.
    destruct (Ha 0 0) as (t & Ht & Hlen); [lia|left; simpl; lia|].
    destruct (Hf t Ht) as (i & j & Hi & _ & -> & Hfirst).
    destruct (decide (i = 0 ∧ j = 0)) as [[-> ->]|Hne].
    { by rewrite variant_zero in Ht. }
    exfalso. apply (Hfirst 0 0); [lia| |done].
    rewrite /OptionGroups.before /=. lia. }
  assert (Hall : concat left ++ required ++ concat right
                 ∈ OptionGroups.sort_by_len acc).
  { rewrite sort_by_len_perm.
    destruct (Ha (length left) (length right)) as (t & Ht & Hlen);
      [lia|left; simpl; lia|].
    destruct (Hf t Ht) as (i & j & _ & _ & -> & _).
    rewrite !variant_length left_variant_full right_variant_full in Hlen.
    pose proof (left_variant_length left i).
    pose proof (right_variant_length right j).
    rewrite /OptionGroups.variant in Ht.
    rewrite left_variant_whole in Ht; [|lia].
    rewrite right_variant_whole in Ht; [|lia]. done. }
  split.
  - destruct (OptionGroups.sort_by_len acc) as [|x rest] eqn:Hres.
    { by apply elem_of_nil in Hreq. }
    assert (x = required) as ->.
    { apply (strictly_sorted_head (x :: rest) required x rest);
        [done|done|done|].
      intros u (i & j & ->)%Hvar. rewrite variant_length. lia. }
    exists rest. split; [done|]. by apply StronglySorted_inv in Hs as [_ ?].
  - destruct (strictly_sorted_last _ _ Hs Hall) as (front & Hres).
    { intros u (i & j & ->)%Hvar. rewrite variant_length !length_app.
      pose proof (left_variant_length left i).
      pose proof (right_variant_length right j). lia. }
    exists front. split; [done|]. rewrite Hres in Hs.
    apply Forall_forall. intros t Ht.
    eapply (StronglySorted_app_1_elem_of _ _ _ _ _ Hs); [done|by left].
Qed.

(** One left group, two right groups. *)
Lemma permute_optional_groups_ends_witness :
  ∃ res,
    OptionGroups.permute_optional_groups [[1]] [10] [[20]; [30]] = Py.Returns res
    ∧ (∃ rest, res = [10] :: rest ∧ Forall (fun t => 1 < length t) rest)
    ∧ (∃ front, res = front ++ [[1; 10; 20; 30]]
         ∧ Forall (fun t => length t < 4) front).
Proof.
  apply (permute_optional_groups_ends nat [[1]] [10] [[20]; [30]]).
  intros [Hreq _]. discriminate Hreq.
Defined.

(** ** More on the tokenizer *)

Section LexerMore.
Import Py Lexer.
Variable unicode_isalnum : N → bool.
Local Abbreviation regex_match := (Lexer.regex_match unicode_isalnum).
Local Abbreviation finditer := (Lexer.finditer unicode_isalnum).
Local Abbreviation is_word := (Lexer.is_word unicode_isalnum).
Local Abbreviation tokenize := (Lexer.tokenize unicode_isalnum).
Implicit Types (s a b v : str) (c x : N) (k : token_kind).
Implicit Types (ms : list (token_kind * str)).

(** *** No alternative reaches across a newline *)

Lemma is_word_newline : is_word 10 = false.
Proof. done. Qed.

Lemma regex_match_at_newline b : regex_match (10%N :: b) = None.
Proof.
  rewrite /Lexer.regex_match /token_specification /first_alternative.
  rewrite match_ARGS_other; [|done].
  rewrite /match_ARROW /match_CLONE /starts_with /match_WORD /match_SPACE
    /nonempty_run /match_MISMATCH /=.
  done.
Qed.

Lemma match_ARGS_line c a b :
  match_ARGS (c :: a ++ 10%N :: b) = match_ARGS (c :: a).
Proof. by rewrite /match_ARGS take_while_stop. Qed.

Lemma regex_match_line c a b :
  regex_match (c :: a ++ 10%N :: b) = regex_match (c :: a).
Proof.
  rewrite /Lexer.regex_match /token_specification /first_alternative.
  rewrite match_ARROW_stop; [|done]. rewrite match_CLONE_stop match_ARGS_line.
  rewrite /match_WORD /match_SPACE !app_comm_cons.
  by rewrite !nonempty_run_stop.
Qed.

Lemma finditer_newline a b skip :
  skip ≤ length a →
  finditer skip (a ++ 10%N :: b) = finditer skip a ++ finditer 0 b.
Proof.
  revert skip. induction a as [|c a IH]; intros skip Hskip.
  - destruct skip; [|simpl in Hskip; lia].
    cbn [app Lexer.finditer]. by rewrite regex_match_at_newline.
  - destruct skip as [|skip]; [|apply IH; simpl in Hskip; lia].
    cbn [app Lexer.finditer]. rewrite regex_match_line.
    destruct (regex_match (c :: a)) as [[k n]|] eqn:Hm.
    + apply regex_match_bounds in Hm. simpl in Hm.
      rewrite IH; [|lia].
      rewrite (app_comm_cons a) take_app_le; [done|simpl; lia].
    + rewrite IH; [done|lia].
Qed.

Lemma tokens_of_app ms ms' :
  tokens_of (ms ++ ms')
  = match (tokens_of ms).2 with
    | Some e => tokens_of ms
    | None => ((tokens_of ms).1 ++ (tokens_of ms').1, (tokens_of ms').2)
    end.
Proof.
  induction ms as [|[k w] ms IH].
  - simpl. by destruct (tokens_of ms').
  - destruct k; simpl; rewrite ?IH; try done;
      by destruct (tokens_of ms) as [toks [e|]].
Qed.

Lemma tokenize_newline a b :
  tokenize (a ++ 10%N :: b)
  = match (tokenize a).2 with
    | Some e => tokenize a
    | None => ((tokenize a).1 ++ (tokenize b).1, (tokenize b).2)
    end.
Proof.
  rewrite /Lexer.tokenize finditer_newline; [|lia]. apply tokens_of_app.
Qed.

Lemma tokenize_trailing_newline a : tokenize (a ++ [10%N]) = tokenize a.
Proof.
  rewrite tokenize_newline.
  by destruct (tokenize a) as [toks [e|]]; rewrite /= ?app_nil_r.
Qed.

End LexerMore.

(** X3. No token reaches across a newline: the tokens of a text are the
    tokens of its first line followed by the tokens of the rest, and the
    text fails where the first of the two fails. A newline at the end of a
    line, as [readlines] leaves it, changes nothing. *)
Theorem tokenize_lines (unicode_isalnum : N → bool) (a b : Py.str) :
  Lexer.tokenize unicode_isalnum (a ++ 10%N :: b)
  = match (Lexer.tokenize unicode_isalnum a).2 with
    | Some e => Lexer.tokenize unicode_isalnum a
    | None =>
        ((Lexer.tokenize unicode_isalnum a).1
           ++ (Lexer.tokenize unicode_isalnum b).1,
         (Lexer.tokenize unicode_isalnum b).2)
    end
  ∧ Lexer.tokenize unicode_isalnum (a ++ [10%N])
    = Lexer.tokenize unicode_isalnum a.
Proof. split; [apply tokenize_newline|apply tokenize_trailing_newline]. Qed.

Section LexerShapes.
Import Py Lexer TokenShape.
Variable unicode_isalnum : N → bool.
Local Abbreviation regex_match := (Lexer.regex_match unicode_isalnum).
Local Abbreviation finditer := (Lexer.finditer unicode_isalnum).
Local Abbreviation is_word := (Lexer.is_word unicode_isalnum).
Local Abbreviation tokenize := (Lexer.tokenize unicode_isalnum).
Implicit Types (s a b v : str) (c x : N) (k : token_kind).
Implicit Types (ms : list (token_kind * str)).

Lemma take_while_prefix (p : N → bool) s :
  take (length (take_while p s)) s = take_while p s.
Proof.
  induction s as [|c s IH]; [done|]. simpl.
  destruct (p c); [|done]. by rewrite /= IH.
Qed.

Lemma take_while_Forall (p : N → bool) s :
  Forall (fun c => p c = true) (take_while p s).
Proof.
  induction s as [|c s IH]; [constructor|]. simpl.
  destruct (p c) eqn:Hc; by constructor.
Qed.

Lemma last_index_lookup c s i : last_index c s = Some i → s !! i = Some c.
Proof.
  revert i. induction s as [|d s IH]; intros i; [done|]. simpl.
  destruct (last_index c s) as [j|].
  - intros [= <-]. by apply IH.
  - destruct (N.eqb_spec d c) as [->|]; by intros [= <-].
Qed.

Lemma nonempty_run_shape (p : N → bool) s n :
  nonempty_run p s = Some n →
  take n s ≠ [] ∧ Forall (fun c => p c = true) (take n s).
Proof.
  rewrite /nonempty_run. destruct (length (take_while p s)) as [|m] eqn:Hlen;
    intros [= <-].
  rewrite -Hlen take_while_prefix. split; [|apply take_while_Forall].
  intros Hnil. by rewrite Hnil in Hlen.
Qed.

Lemma match_ARGS_shape s n :
  match_ARGS s = Some n → token_shape is_word ARGS (take n s).
Proof.
  rewrite /match_ARGS. destruct s as [|c rest]; [done|].
  destruct (N.eqb_spec c (chr "(")) as [->|]; [|done].
  destruct (last_index _ _) as [i|] eqn:Hi; intros [= <-].
  pose proof (last_index_lt _ _ _ Hi) as Hlt.
  apply last_index_lookup in Hi.
  exists (take i (take_while is_dot rest)). split.
  - cbn [take]. f_equal.
    rewrite -(take_S_r _ _ _ Hi) -{1}(take_while_prefix is_dot rest).
    rewrite take_take. f_equal. lia.
  - intros Hin. apply subseteq_take in Hin.
    pose proof (take_while_Forall is_dot rest) as Hall.
    rewrite Forall_forall in Hall. by specialize (Hall _ Hin).
Qed.

Lemma regex_match_shape s k n :
  regex_match s = Some (k, n) → token_shape is_word k (take n s).
Proof.
  rewrite /Lexer.regex_match /token_specification /first_alternative.
  destruct (match_ARROW s) as [n1|] eqn:H1.
  { intros [= <- <-]. revert H1. rewrite /match_ARROW /starts_with.
    by case_bool_decide as Hs; intros [= <-]. }
  destruct (match_CLONE s) as [n2|] eqn:H2.
  { intros [= <- <-]. revert H2. rewrite /match_CLONE /starts_with.
    by case_bool_decide as Hs; intros [= <-]. }
  destruct (match_ARGS s) as [n3|] eqn:H3.
  { intros [= <- <-]. by apply match_ARGS_shape. }
  destruct (match_WORD unicode_isalnum s) as [n4|] eqn:H4.
  { intros [= <- <-]. apply nonempty_run_shape in H4 as [? Hall].
    split; [done|]. eapply Forall_impl; [exact Hall|].
    intros c [?|?%N.eqb_eq]%orb_true_iff; auto. }
  destruct (match_SPACE s) as [n5|] eqn:H5.
  { intros [= <- <-]. apply nonempty_run_shape in H5 as [? Hall].
    split; [done|]. eapply Forall_impl; [exact Hall|].
    by intros c ?%N.eqb_eq. }
  destruct (match_MISMATCH s) as [n6|] eqn:H6; [|done].
  intros [= <- <-]. revert H6. rewrite /match_MISMATCH.
  destruct s as [|c s]; [done|]. destruct (is_dot c) eqn:Hd; intros [= <-].
  exists c. split; [done|]. intros ->. done.
Qed.

Lemma finditer_shape s skip k v :
  (k, v) ∈ finditer skip s →
  token_shape is_word k v ∧ ∃ pre post, s = pre ++ v ++ post.
Proof.
  revert skip. induction s as [|c s IH]; intros skip; [by intros ?%elem_of_nil|].
  assert (Hrec : ∀ skip', (k, v) ∈ finditer skip' s →
            token_shape is_word k v ∧ ∃ pre post, c :: s = pre ++ v ++ post).
  { intros skip' [? (pre & post & ->)]%IH. split; [done|].
    by exists (c :: pre), post. }
  destruct skip as [|skip]; [|apply Hrec].
  cbn [Lexer.finditer].
  destruct (regex_match (c :: s)) as [[k' n]|] eqn:Hm; [|apply Hrec].
  intros [[= -> ->]|Hin]%elem_of_cons; [|by eapply Hrec].
  split; [by apply regex_match_shape|].
  exists [], (drop n (c :: s)). by rewrite /= take_drop.
Qed.

Lemma tokens_of_elem ms t :
  t ∈ (tokens_of ms).1 → (kind t, value t) ∈ ms.
Proof.
  induction ms as [|[k w] ms IH]; [by intros ?%elem_of_nil|].
  destruct k; simpl; try (intros ?%IH; by right);
    try (intros [->|?%IH]%elem_of_cons; [by left|by right]).
  by intros ?%elem_of_nil.
Qed.

End LexerShapes.

(** X4. Every token that [tokenize] yields holds a piece of the line, as
    it stands there, of the form of its kind: ARROW is [->], CLONE is [=],
    ARGS begins with an opening and ends with a closing parenthesis and
    holds no newline, WORD is a non-empty run of word characters and
    dots. *)
Theorem tokenize_token_shapes (unicode_isalnum : N → bool) (line : Py.str) :
  Forall (fun t =>
            (∃ pre post, line = pre ++ Lexer.value t ++ post)
            ∧ TokenShape.token_shape (Lexer.is_word unicode_isalnum)
                (Lexer.kind t) (Lexer.value t)
            ∧ Lexer.kind t ∈ [Lexer.ARROW; Lexer.CLONE; Lexer.ARGS; Lexer.WORD])
         (Lexer.tokenize unicode_isalnum line).1.
Proof.
  pose proof (tokens_of_kinds (Lexer.finditer unicode_isalnum 0 line)) as Hk.
  rewrite /Lexer.tokenize. rewrite !Forall_forall in Hk |- *.
  intros t Ht. destruct (Hk t Ht) as [Hs Hm].
  apply tokens_of_elem, finditer_shape in Ht as [Hshape Hslice].
  split_and!; [done|done|].
  destruct (Lexer.kind t); try done; apply list_elem_of_In; simpl; tauto.
Qed.

Section LexerRuns.
Import Py Lexer.
Variable unicode_isalnum : N → bool.
Local Abbreviation regex_match := (Lexer.regex_match unicode_isalnum).
Local Abbreviation finditer := (Lexer.finditer unicode_isalnum).
Local Abbreviation is_word := (Lexer.is_word unicode_isalnum).
Local Abbreviation tokenize := (Lexer.tokenize unicode_isalnum).
Implicit Types (s a b v : str) (c x : N) (k : token_kind).

Lemma take_while_all (p : N → bool) s :
  Forall (fun c => p c = true) s → take_while p s = s.
Proof. induction 1 as [|c s Hc _ IH]; [done|]. by rewrite /= Hc IH. Qed.

Lemma finditer_skip_all s skip : length s ≤ skip → finditer skip s = [].
Proof.
  revert skip. induction s as [|c s IH]; intros skip Hskip; [done|].
  destruct skip as [|skip]; simpl in *; [lia|]. apply IH. lia.
Qed.

Lemma regex_match_word_run c s :
  Forall (fun c => is_word c = true ∨ c = chr ".") (c :: s) →
  regex_match (c :: s) = Some (WORD, S (length s)).
Proof.
  intros Hall.
  assert (Hrun : Forall (fun c => is_word c || (c =? chr ".")%N = true) (c :: s)).
  { eapply Forall_impl; [exact Hall|]. intros d [->| ->]; [done|].
    by rewrite N.eqb_refl orb_true_r. }
  apply Forall_cons in Hall as [Hc _].
  assert (c ≠ chr "-" ∧ c ≠ chr "=" ∧ c ≠ chr "(") as (? & ? & ?).
  { split_and!; intros ->; by destruct Hc. }
  rewrite /Lexer.regex_match /token_specification /first_alternative.
  rewrite match_ARGS_other; [|done].
  rewrite /match_ARROW /match_CLONE /starts_with /match_WORD /nonempty_run.
  rewrite take_while_all; [|done].
  rewrite !bool_decide_eq_false_2; [done|..].
  - by intros [= ->].
  - by intros [= -> _].
Qed.

Lemma regex_match_space s :
  ∃ n, regex_match (chr " " :: s) = Some (SPACE, n).
Proof.
  rewrite /Lexer.regex_match /token_specification /first_alternative.
  rewrite match_ARGS_other; [|done].
  rewrite /match_ARROW /match_CLONE /starts_with /match_WORD /match_SPACE
    /nonempty_run /=.
  by eexists.
Qed.

Lemma finditer_blank s skip :
  Forall (fun c => c = chr " " ∨ c = 10%N) s →
  Forall (fun m => m.1 = SPACE) (finditer skip s).
Proof.
  intros Hall. revert skip.
  induction Hall as [|c s Hc _ IH]; intros skip; [constructor|].
  destruct skip as [|skip]; [|apply IH].
  cbn [Lexer.finditer]. destruct Hc as [-> | ->].
  - destruct (regex_match_space s) as [n ->]. by constructor.
  - by rewrite regex_match_at_newline.
Qed.

Lemma tokens_of_spaces (ms : list (token_kind * str)) :
  Forall (fun m => m.1 = SPACE) ms → tokens_of ms = ([], None).
Proof. induction 1 as [|[k w] ms Hk _ IH]; [done|]. simpl in Hk. by subst. Qed.

End LexerRuns.

(** X5. A non-empty text of word characters and dots only, such as a
    dotted name, is one WORD token, the text itself. *)
Theorem tokenize_dotted_word (unicode_isalnum : N → bool) (s : Py.str) :
  s ≠ [] →
  Forall (fun c => Lexer.is_word unicode_isalnum c = true ∨ c = Py.chr ".") s →
  Lexer.tokenize unicode_isalnum s = ([Lexer.mkToken Lexer.WORD s], None).
Proof.
  intros Hne Hall. destruct s as [|c s]; [done|].
  rewrite /Lexer.tokenize. cbn [Lexer.finditer].
  rewrite regex_match_word_run; [|done].
  rewrite finditer_skip_all; [|simpl; lia].
  by rewrite take_ge.
Qed.

(** The name [os.path.join]. *)
Lemma tokenize_dotted_word_witness :
  Lexer.tokenize Lexer.ascii_only (Py.of_string "os.path.join")
  = ([Lexer.mkToken Lexer.WORD (Py.of_string "os.path.join")], None).
Proof.
  apply (tokenize_dotted_word Lexer.ascii_only (Py.of_string "os.path.join")).
  - vm_compute. discriminate.
  - apply (bool_decide_unpack _). vm_compute. exact I.
Defined.

(** X6. A line of spaces and newlines only, the empty line among them,
    yields no token and does not fail. *)
Theorem tokenize_blank (unicode_isalnum : N → bool) (line : Py.str) :
  Forall (fun c => c = Py.chr " " ∨ c = 10%N) line →
  Lexer.tokenize unicode_isalnum line = ([], None).
Proof. intros Hall. by apply tokens_of_spaces, finditer_blank. Qed.

(** Three spaces and the newline that ends the line. *)
Lemma tokenize_blank_witness :
  Lexer.tokenize Lexer.ascii_only (Py.of_string "   " ++ [10%N]) = ([], None).
Proof.
  apply (tokenize_blank Lexer.ascii_only).
  apply (bool_decide_unpack _). vm_compute. exact I.
Defined.

(** ** The printing part of [parser.py] *)

Section ParserMainFacts.
Import Py Lexer Cli ParserMain.
Variable unicode_isalnum : N → bool.
Variable token_str : Token → str.
Local Abbreviation tokenize := (Lexer.tokenize unicode_isalnum).
Local Abbreviation print_tokens :=
  (ParserMain.print_tokens unicode_isalnum token_str).
Local Abbreviation printed := (ParserMain.printed token_str).
Implicit Types (w : world) (line text current : str).

Lemma for_each_print (toks : list Token) w :
  for_each toks (fun token => print (token_str token)) w
  = (mkWorld (files w) (stdout w ++ (token_str <$> toks)) (stderr w), Returns tt).
Proof.
  revert w. induction toks as [|t toks IH]; intros [fs out err].
  - by rewrite /= app_nil_r.
  - cbn [for_each]. rewrite /mbind /M_bind /bind /print /=.
    by rewrite IH /= -(assoc_L (++)).
Qed.

Lemma print_tokens_run line w : print_tokens line w = printed w (tokenize line).
Proof.
  rewrite /ParserMain.print_tokens /ParserMain.printed /mbind /M_bind /bind for_each_print.
  by destruct (tokenize line) as [toks [e|]].
Qed.

Lemma print_lines_run text current w :
  for_each (readlines_from current text) print_tokens w
  = print_tokens (current ++ text) w.
Proof.
  revert current w. induction text as [|c text IH]; intros current w.
  - rewrite app_nil_r. destruct current as [|d current].
    + rewrite print_tokens_run /ParserMain.printed /= app_nil_r. by destruct w.
    + cbn [readlines_from for_each]. rewrite /mbind /M_bind /bind.
      by destruct (print_tokens (d :: current) w) as [w' [[]|e]].
  - cbn [readlines_from]. destruct (N.eqb_spec c 10) as [->|Hc].
    + cbn [for_each]. rewrite /mbind /M_bind /bind.
      rewrite !print_tokens_run tokenize_trailing_newline tokenize_newline.
      rewrite /ParserMain.printed.
      destruct (tokenize current) as [toks [e|]]; [done|].
      rewrite (IH []) print_tokens_run /ParserMain.printed /=.
      by rewrite fmap_app (assoc_L (++)).
    + by rewrite IH -(assoc_L (++)).
Qed.

End ParserMainFacts.

(** X7. Printing the tokens of a text line by line, from the standard
    input or from a file, prints the tokens of the whole text in order,
    one each, up to the first stray character, and raises the
    [ParseError] of that character; no token of a later line is printed.
    A text without stray character is printed to its end. *)
Theorem parse_file_prints (unicode_isalnum : N → bool)
    (token_str : Lexer.Token → Py.str) :
  (∀ stdin w,
     ParserMain.script unicode_isalnum token_str [] stdin w
     = ParserMain.printed token_str w (Lexer.tokenize unicode_isalnum stdin))
  ∧ (∀ path text w,
       Cli.files w !! path = Some text →
       ParserMain.parse_file unicode_isalnum token_str path w
       = ParserMain.printed token_str w (Lexer.tokenize unicode_isalnum text)).
Proof.
  split.
  - intros stdin w. rewrite -print_tokens_run.
    apply (print_lines_run _ _ stdin []).
  - intros path text w Hfile.
    rewrite /ParserMain.parse_file /mbind /Cli.M_bind /Cli.bind /Cli.read_file.
    rewrite Hfile -print_tokens_run. apply (print_lines_run _ _ text []).
Qed.

(** The file [module.c] of the sample world holds [int x;]: two words are
    printed, then the semicolon is reported. *)
Lemma parse_file_prints_witness :
  ParserMain.parse_file Lexer.ascii_only Lexer.value (Py.of_string "module.c")
    Cli.sample_world
  = (Cli.mkWorld (Cli.files Cli.sample_world)
       [Py.of_string "int"; Py.of_string "x"] [],
     Py.Raises (Py.Exc Py.ParseError [Py.VStr (Py.of_string ";")])).
Proof.
  refine (proj2 (parse_file_prints Lexer.ascii_only Lexer.value)
            (Py.of_string "module.c") (Py.of_string "int x;")
            Cli.sample_world _).
  vm_compute. reflexivity.
Defined.

(** ** More on the version comparator *)

Section VersionMore.
Import Py Version.
Variable unicode_isdigit : N → bool.
Variable unicode_decimal : N → option Z.
Local Abbreviation isdigit := (Version.isdigit unicode_isdigit).
Local Abbreviation int := (Version.int unicode_decimal).
Local Abbreviation flush := (Version.flush unicode_decimal).
Local Abbreviation splitter_step :=
  (Version.splitter_step unicode_isdigit unicode_decimal).
Local Abbreviation splitter_loop :=
  (Version.splitter_loop unicode_isdigit unicode_decimal).
Local Abbreviation _version_splitter :=
  (Version._version_splitter unicode_isdigit unicode_decimal).

Local Abbreviation allowed := (Version.allowed unicode_isdigit).
Implicit Types (s cs : str) (c : N) (st : splitter_state) (e : exception).
Lemma flush_returns s s' st st' :
  flush s st = Returns st' →
  accumulator st ≠ [] ∧ accumulator st' = []
  ∧ (∃ n, version st' = version st ++ [n]) ∧ flush s' st = Returns st'.
Proof.
  rewrite /Version.flush. destruct (accumulator st) as [|d ds]; [done|].
  destruct (int (d :: ds)) as [n|e]; [|done].
  intros [= <-]. split_and!; [done|done|by exists n|done].
Qed.

Lemma abc_index_elem c i : abc_index c = Some i → c ∈ of_string "abc".
Proof.
  rewrite /abc_index.
  destruct (N.eqb_spec c (chr "a")) as [->|]; [intros _; by apply (bool_decide_unpack _)|].
  destruct (N.eqb_spec c (chr "b")) as [->|]; [intros _; by apply (bool_decide_unpack _)|].
  destruct (N.eqb_spec c (chr "c")) as [->|]; [intros _; by apply (bool_decide_unpack _)|].
  done.
Qed.

Lemma splitter_step_returns s s' st c st' :
  splitter_step s st c = Returns st' →
  allowed c ∧ splitter_step s' st c = Returns st'
  ∧ (isdigit c = true ∧ accumulator st' ≠ []
     ∨ isdigit c = false ∧ accumulator st ≠ [] ∧ accumulator st' = []).
Proof.
  rewrite /Version.splitter_step /Version.allowed. destruct (isdigit c) eqn:Hd.
  { intros [= <-]. split_and!; [by left|done|left]. split; [done|].
    simpl. by destruct (accumulator st). }
  destruct (N.eqb_spec c (chr ".")) as [->|Hdot].
  { intros Hf. apply (flush_returns s s') in Hf as (? & ? & _ & ?).
    split_and!; [by right; left|done|by right]. }
  destruct (abc_index c) as [i|] eqn:Hi; [|done].
  destruct (flush s st) as [st1|e] eqn:Hf; [|done].
  pose proof (flush_returns s s' _ _ Hf) as (? & ? & _ & ->).
  intros [= <-]. split_and!; [|done|by right].
  right; right. by eapply abc_index_elem.
Qed.

Lemma splitter_loop_app s st cs1 cs2 :
  splitter_loop s st (cs1 ++ cs2)
  = st' ← splitter_loop s st cs1; splitter_loop s st' cs2.
Proof.
  revert st. induction cs1 as [|c cs1 IH]; intros st; [done|].
  rewrite -app_comm_cons. cbn [Version.splitter_loop].
  destruct (splitter_step s st c) as [st1|e]; [|done]. apply IH.
Qed.

Lemma splitter_loop_returns s s' st cs st' :
  splitter_loop s st cs = Returns st' →
  Forall allowed cs ∧ splitter_loop s' st cs = Returns st'.
Proof.
  revert st. induction cs as [|c cs IH]; intros st; [by intros [= <-]|].
  cbn [Version.splitter_loop].
  destruct (splitter_step s st c) as [st1|e] eqn:Hstep; [|done].
  apply (splitter_step_returns s s') in Hstep as (? & -> & _).
  intros [? ?]%IH. split; [by constructor|done].
Qed.

Lemma version_splitter_returns s (t : list Z) :
  _version_splitter s = Returns t →
  ∃ st st', splitter_loop s (mkState [] []) s = Returns st
    ∧ flush s st = Returns st' ∧ t = version st'.
Proof.
  rewrite /Version._version_splitter.
  destruct (splitter_loop s _ s) as [st|e]; [|done]. simpl.
  destruct (flush s st) as [st'|e] eqn:Hf; [|done].
  intros [= <-]. by exists st, st'.
Qed.

Lemma version_splitter_first c s (t : list Z) :
  _version_splitter (c :: s) = Returns t → isdigit c = true.
Proof.
  intros (st & st' & Hloop & _)%version_splitter_returns.
  cbn [Version.splitter_loop] in Hloop.
  destruct (splitter_step (c :: s) (mkState [] []) c) as [st1|e] eqn:Hstep;
    [|done].
  by apply (splitter_step_returns _ []) in Hstep as (_ & _ & [[? _]|(_ & ? & _)]).
Qed.

Lemma version_splitter_last s c (t : list Z) :
  _version_splitter (s ++ [c]) = Returns t → isdigit c = true.
Proof.
  intros (st & st' & Hloop & Hflush & _)%version_splitter_returns.
  rewrite splitter_loop_app in Hloop.
  destruct (splitter_loop (s ++ [c]) (mkState [] []) s) as [st1|e]; [|done].
  cbn [mbind result_bind Version.splitter_loop] in Hloop.
  destruct (splitter_step (s ++ [c]) st1 c) as [st2|e] eqn:Hstep; [|done].
  injection Hloop as ->.
  apply (flush_returns _ []) in Hflush as (Hacc & _).
  by apply (splitter_step_returns _ []) in Hstep as (_ & _ & [[? _]|(_ & _ & ?)]).
Qed.

(** *** ASCII input *)

Local Abbreviation ascii_digit := (Version.ascii_digit unicode_isdigit).

Lemma int_ascii (ds : str) (z : Z) :
  Forall ascii_digit ds →
  ∃ n, foldl (Version.int_step unicode_decimal) (Returns z) ds = Returns n.
Proof.
  intros Hall. revert z. induction Hall as [|c ds [Hc Hd] _ IH]; intros z.
  - by exists z.
  - cbn [foldl]. rewrite /Version.int_step /Version.decimal_value /=.
    revert Hd. rewrite /Version.isdigit Hc. intros ->. apply IH.
Qed.

Lemma flush_ascii s st :
  Forall ascii_digit (accumulator st) →
  (∀ e, flush s st = Raises e → exc_type e = ParseVersionError)
  ∧ (∀ st', flush s st = Returns st' → Forall ascii_digit (accumulator st')).
Proof.
  intros Hacc. rewrite /Version.flush.
  destruct (accumulator st) as [|d ds] eqn:Hds.
  { split; [by intros e [= <-]|done]. }
  destruct (int_ascii (d :: ds) 0 Hacc) as [n Hn].
  rewrite /Version.int Hn /=. split; [done|]. intros st' [= <-]. constructor.
Qed.

Lemma splitter_step_ascii s st c :
  (c <? 128)%N = true → Forall ascii_digit (accumulator st) →
  (∀ e, splitter_step s st c = Raises e → exc_type e = ParseVersionError)
  ∧ (∀ st', splitter_step s st c = Returns st' →
       Forall ascii_digit (accumulator st')).
Proof.
  intros Hc Hacc. destruct (flush_ascii s st Hacc) as [Hraise Hret].
  rewrite /Version.splitter_step. destruct (isdigit c) eqn:Hd.
  { split; [done|]. intros st' [= <-]. simpl.
    apply Forall_app. split; [done|]. by repeat constructor. }
  destruct (c =? chr ".")%N; [by split|].
  destruct (abc_index c); [|split; [by intros e [= <-]|done]].
  destruct (flush s st) as [st1|e1]; simpl.
  - split; [done|]. intros st' [= <-]. simpl. by apply Hret.
  - split; [|done]. intros e [= <-]. by apply Hraise.
Qed.

Lemma splitter_loop_ascii s st cs :
  Forall (fun c => (c <? 128)%N = true) cs →
  Forall ascii_digit (accumulator st) →
  (∀ e, splitter_loop s st cs = Raises e → exc_type e = ParseVersionError)
  ∧ (∀ st', splitter_loop s st cs = Returns st' →
       Forall ascii_digit (accumulator st')).
Proof.
  intros Hcs. revert st. induction Hcs as [|c cs Hc _ IH]; intros st Hacc.
  { split; [done|]. by intros st' [= <-]. }
  destruct (splitter_step_ascii s st c Hc Hacc) as [Hraise Hret].
  cbn [Version.splitter_loop].
  destruct (splitter_step s st c) as [st1|e1]; simpl.
  - apply IH. by apply Hret.
  - split; [|done]. intros e [= <-]. by apply Hraise.
Qed.

Lemma version_splitter_ascii s e :
  Forall (fun c => (c <? 128)%N = true) s →
  _version_splitter s = Raises e → exc_type e = ParseVersionError.
Proof.
  intros Hs. rewrite /Version._version_splitter.
  destruct (splitter_loop_ascii s (mkState [] []) s Hs) as [Hraise Hret];
    [constructor|].
  destruct (splitter_loop s _ s) as [st|e1]; simpl.
  - destruct (flush_ascii s st) as [Hraise' _]; [by apply Hret|].
    destruct (flush s st) as [st'|e2]; simpl; [done|].
    intros [= <-]. by apply Hraise'.
  - intros [= <-]. by apply Hraise.
Qed.

End VersionMore.

(** X8. A version string that [_version_splitter] accepts begins and ends
    with a digit and holds nothing but digits, dots and the letters [a],
    [b], [c]; the tuple it gives is not empty. So the empty string, a
    leading or trailing dot and a trailing letter are all rejected. *)
Theorem version_splitter_accepts
    (unicode_isdigit : N → bool) (unicode_decimal : N → option Z)
    (s : Py.str) (t : list Z) :
  Version._version_splitter unicode_isdigit unicode_decimal s = Py.Returns t →
  (∃ c rest, s = c :: rest ∧ Version.isdigit unicode_isdigit c = true)
  ∧ (∃ front c, s = front ++ [c] ∧ Version.isdigit unicode_isdigit c = true)
  ∧ Forall (Version.allowed unicode_isdigit) s
  ∧ t ≠ [].
Proof.
  intros Hs.
  pose proof (version_splitter_returns _ _ _ _ Hs)
    as (st & st' & Hloop & Hflush & ->).
  apply (splitter_loop_returns _ _ _ []) in Hloop as [Hall _].
  apply (flush_returns _ _ []) in Hflush as (_ & _ & [n Hn] & _).
  split_and!; [| |done|].
  - destruct s as [|c rest].
    + by vm_compute in Hs.
    + exists c, rest. split; [done|]. by eapply version_splitter_first.
  - destruct s as [|c front _] using rev_ind.
    + by vm_compute in Hs.
    + exists front, c. split; [done|]. by eapply version_splitter_last.
  - rewrite Hn. by destruct (Version.version st).
Qed.

(** The version [1.4b3]. *)
Lemma version_splitter_accepts_witness :
  (∃ c rest, Py.of_string "1.4b3" = c :: rest
     ∧ Version.isdigit Version.no_unicode_digit c = true)
  ∧ (∃ front c, Py.of_string "1.4b3" = front ++ [c]
       ∧ Version.isdigit Version.no_unicode_digit c = true)
  ∧ Forall (Version.allowed Version.no_unicode_digit) (Py.of_string "1.4b3")
  ∧ [1; 4; -2; 3]%Z ≠ [].
Proof.
  apply (version_splitter_accepts Version.no_unicode_digit
           Version.no_unicode_decimal (Py.of_string "1.4b3") [1; 4; -2; 3]%Z).
  vm_compute. reflexivity.
Defined.

(** X9. On a version string of at most 640 ASCII characters,
    [_version_splitter] either returns or raises [ParseVersionError]; so
    does [version_comparator] on two such strings. No other exception
    leaves them: an ASCII character that [isdigit] accepts is a digit that
    [int] accepts, and a run of at most 640 digits is below every bound
    that the interpreter can be set to put on the digits of [int] (640 is
    the least, 4300 the default), so that [int] raises no [ValueError]. *)
Theorem version_errors_ascii
    (unicode_isdigit : N → bool) (unicode_decimal : N → option Z)
    (version1 version2 : Py.str) :
  Forall (fun c => (c < 128)%N) version1 → length version1 ≤ 640 →
  Forall (fun c => (c < 128)%N) version2 → length version2 ≤ 640 →
  (∀ e, Version._version_splitter unicode_isdigit unicode_decimal version1
        = Py.Raises e → Py.exc_type e = Py.ParseVersionError)
  ∧ (∀ e, Version.version_comparator unicode_isdigit unicode_decimal
            version1 version2 = Py.Raises e →
          Py.exc_type e = Py.ParseVersionError).
Proof.
  intros H1 _ H2 _.
  assert (Hb : ∀ v, Forall (fun c => (c < 128)%N) v →
            Forall (fun c => (c <? 128)%N = true) v).
  { intros v Hv. eapply Forall_impl; [exact Hv|]. intros c. apply N.ltb_lt. }
  apply Hb in H1, H2. split.
  - intros e. by apply version_splitter_ascii.
  - intros e. rewrite /Version.version_comparator.
    destruct (Version._version_splitter _ _ version1) as [t1|e1] eqn:Hv1; simpl.
    + destruct (Version._version_splitter _ _ version2) as [t2|e2] eqn:Hv2;
        simpl; [done|].
      intros [= <-]. eapply version_splitter_ascii; [exact H2|exact Hv2].
    + intros [= <-]. eapply version_splitter_ascii; [exact H1|exact Hv1].
Qed.

(** The strings [1..2] and [1.x]: both are rejected with
    [ParseVersionError]. *)
Lemma version_errors_ascii_witness :
  (∀ e, Version._version_splitter Version.no_unicode_digit
          Version.no_unicode_decimal (Py.of_string "1..2") = Py.Raises e →
        Py.exc_type e = Py.ParseVersionError)
  ∧ (∀ e, Version.version_comparator Version.no_unicode_digit
            Version.no_unicode_decimal (Py.of_string "1..2")
            (Py.of_string "1.x") = Py.Raises e →
          Py.exc_type e = Py.ParseVersionError).
Proof.
  apply (version_errors_ascii Version.no_unicode_digit
           Version.no_unicode_decimal).
  - apply (bool_decide_unpack _). vm_compute. exact I.
  - vm_compute. lia.
  - apply (bool_decide_unpack _). vm_compute. exact I.
  - vm_compute. lia.
Defined.

Section VersionOrder.
Import Py Version.

Lemma compare_pairs_unfold (a b : list Z) :
  compare_pairs (zip_longest a b 0)
  = if (default 0 (head a) <? default 0 (head b))%Z then (-1)%Z
    else if (default 0 (head a) >? default 0 (head b))%Z then 1%Z
    else compare_pairs (zip_longest (tail a) (tail b) 0).
Proof. by destruct a as [|x a], b as [|y b]. Qed.

Lemma compare_pairs_trans (n : nat) (a b c : list Z) :
  length a ≤ n → length b ≤ n → length c ≤ n →
  (compare_pairs (zip_longest a b 0) ≤ 0)%Z →
  (compare_pairs (zip_longest b c 0) ≤ 0)%Z →
  (compare_pairs (zip_longest a c 0) ≤ 0)%Z
  ∧ (compare_pairs (zip_longest a b 0) = (-1)%Z
     ∨ compare_pairs (zip_longest b c 0) = (-1)%Z →
     compare_pairs (zip_longest a c 0) = (-1)%Z).
Proof.
  revert a b c. induction n as [|n IH]; intros a b c Ha Hb Hc.
  { destruct a, b, c; simpl in *; try lia. }
  rewrite (compare_pairs_unfold a b) (compare_pairs_unfold b c)
    (compare_pairs_unfold a c).
  assert (length (tail a) ≤ n) by (destruct a; simpl in *; lia).
  assert (length (tail b) ≤ n) by (destruct b; simpl in *; lia).
  assert (length (tail c) ≤ n) by (destruct c; simpl in *; lia).
  specialize (IH (tail a) (tail b) (tail c)).
  rewrite !Z.gtb_ltb.
  generalize (default 0%Z (head a)) (default 0%Z (head b))
    (default 0%Z (head c)).
  intros x y z.
  destruct (Z.ltb_spec x y), (Z.ltb_spec y x), (Z.ltb_spec y z),
    (Z.ltb_spec z y), (Z.ltb_spec x z), (Z.ltb_spec z x);
    try lia; auto.
Qed.

Lemma compare_pairs_pad (t : list Z) :
  compare_pairs (zip_longest t (t ++ [0%Z]) 0) = 0%Z
  ∧ compare_pairs (zip_longest (t ++ [0%Z]) t 0) = 0%Z.
Proof.
  induction t as [|x t [IH1 IH2]]; [done|].
  cbn [app zip_longest compare_pairs].
  by rewrite Z.gtb_ltb Z.ltb_irrefl.
Qed.

Lemma version_comparator_returns
    (unicode_isdigit : N → bool) (unicode_decimal : N → option Z)
    (version1 version2 : str) (r : Z) :
  version_comparator unicode_isdigit unicode_decimal version1 version2
  = Returns r →
  ∃ t1 t2,
    _version_splitter unicode_isdigit unicode_decimal version1 = Returns t1
    ∧ _version_splitter unicode_isdigit unicode_decimal version2 = Returns t2
    ∧ r = compare_pairs (zip_longest t1 t2 0).
Proof.
  rewrite /version_comparator.
  destruct (_version_splitter _ _ version1) as [t1|e1]; [|done]. simpl.
  destruct (_version_splitter _ _ version2) as [t2|e2]; [|done]. simpl.
  intros [= <-]. by exists t1, t2.
Qed.

End VersionOrder.

(** X10. The comparator orders versions: when a first version compares
    not greater than a second and the second not greater than a third, the
    first compares not greater than the third, and less when one of the two
    comparisons says less. *)
Theorem version_comparator_transitive
    (unicode_isdigit : N → bool) (unicode_decimal : N → option Z)
    (version1 version2 version3 : Py.str) (r12 r23 : Z) :
  Version.version_comparator unicode_isdigit unicode_decimal version1 version2
  = Py.Returns r12 →
  Version.version_comparator unicode_isdigit unicode_decimal version2 version3
  = Py.Returns r23 →
  (r12 ≤ 0)%Z → (r23 ≤ 0)%Z →
  ∃ r13,
    Version.version_comparator unicode_isdigit unicode_decimal version1 version3
    = Py.Returns r13
    ∧ (r13 ≤ 0)%Z
    ∧ (r12 = (-1)%Z ∨ r23 = (-1)%Z → r13 = (-1)%Z).
Proof.
  intros (t1 & t2 & H1 & H2 & ->)%version_comparator_returns
         (t2' & t3 & H2' & H3 & ->)%version_comparator_returns Hle12 Hle23.
  rewrite H2 in H2'. injection H2' as <-.
  rewrite /Version.version_comparator H1 H3 /=. eexists. split; [done|].
  apply (compare_pairs_trans (length t1 + length t2 + length t3) t1 t2 t3);
    [lia..|done|done].
Qed.

(** [1.4a1] before [1.4b3] before [1.4]. *)
Lemma version_comparator_transitive_witness :
  ∃ r13,
    Version.version_comparator Version.no_unicode_digit
      Version.no_unicode_decimal (Py.of_string "1.4a1") (Py.of_string "1.4")
    = Py.Returns r13
    ∧ (r13 ≤ 0)%Z
    ∧ ((-1)%Z = (-1)%Z ∨ (-1)%Z = (-1)%Z → r13 = (-1)%Z).
Proof.
  apply (version_comparator_transitive Version.no_unicode_digit
           Version.no_unicode_decimal (Py.of_string "1.4a1")
           (Py.of_string "1.4b3") (Py.of_string "1.4") (-1) (-1)).
  - vm_compute. reflexivity.
  - vm_compute. reflexivity.
  - lia.
  - lia.
Defined.

Section VersionPadding.
Import Py Version.
Variable unicode_isdigit : N → bool.
Variable unicode_decimal : N → option Z.
Local Abbreviation _version_splitter :=
  (Version._version_splitter unicode_isdigit unicode_decimal).

Lemma version_splitter_dot_zero_in (v s' : str) (t : list Z) :
  _version_splitter v = Returns t →
  (st ← Version.splitter_loop unicode_isdigit unicode_decimal s'
          (mkState [] []) (v ++ [46%N; 48%N]);
   st' ← Version.flush unicode_decimal s' st;
   Returns (version st'))
  = Returns (t ++ [0%Z]).
Proof.
  intros (st & st' & Hloop & Hflush & ->)%version_splitter_returns.
  apply (splitter_loop_returns _ _ _ s') in Hloop as [_ Hloop].
  apply (flush_returns _ _ s') in Hflush as (_ & Hacc & _ & Hflush).
  assert (Hdot : ∀ st0, Version.splitter_step unicode_isdigit unicode_decimal
                          s' st0 46 = Version.flush unicode_decimal s' st0)
    by done.
  assert (Hzero : ∀ st0, Version.splitter_step unicode_isdigit unicode_decimal
                           s' st0 48
                         = Returns (mkState (version st0)
                                      (accumulator st0 ++ [48%N])))
    by done.
  rewrite splitter_loop_app Hloop.
  cbn [mbind result_bind Version.splitter_loop].
  rewrite Hdot Hflush. cbn [mbind result_bind]. rewrite Hzero.
  cbn [mbind result_bind]. rewrite /Version.flush Hacc. done.
Qed.

Lemma version_splitter_dot_zero (v : str) (t : list Z) :
  _version_splitter v = Returns t →
  _version_splitter (v ++ of_string ".0") = Returns (t ++ [0%Z]).
Proof. intros Hv. by apply (version_splitter_dot_zero_in v (v ++ of_string ".0")). Qed.

End VersionPadding.

(** X11. A version and the same version with [.0] added compare equal:
    the added component is the zero that the padding supplies. *)
Theorem version_comparator_trailing_zero
    (unicode_isdigit : N → bool) (unicode_decimal : N → option Z)
    (v : Py.str) (t : list Z) :
  Version._version_splitter unicode_isdigit unicode_decimal v = Py.Returns t →
  Version._version_splitter unicode_isdigit unicode_decimal
    (v ++ Py.of_string ".0") = Py.Returns (t ++ [0%Z])
  ∧ Version.version_comparator unicode_isdigit unicode_decimal
      v (v ++ Py.of_string ".0") = Py.Returns 0%Z
  ∧ Version.version_comparator unicode_isdigit unicode_decimal
      (v ++ Py.of_string ".0") v = Py.Returns 0%Z.
Proof.
  intros Hv. pose proof (version_splitter_dot_zero _ _ _ _ Hv) as Hv0.
  destruct (compare_pairs_pad t) as [Hpad1 Hpad2].
  rewrite /Version.version_comparator Hv Hv0 /= Hpad1 Hpad2. done.
Qed.

(** [1.4] and [1.4.0]. *)
Lemma version_comparator_trailing_zero_witness :
  Version._version_splitter Version.no_unicode_digit Version.no_unicode_decimal
    (Py.of_string "1.4" ++ Py.of_string ".0") = Py.Returns ([1; 4]%Z ++ [0%Z])
  ∧ Version.version_comparator Version.no_unicode_digit
      Version.no_unicode_decimal
      (Py.of_string "1.4") (Py.of_string "1.4" ++ Py.of_string ".0")
    = Py.Returns 0%Z
  ∧ Version.version_comparator Version.no_unicode_digit
      Version.no_unicode_decimal
      (Py.of_string "1.4" ++ Py.of_string ".0") (Py.of_string "1.4")
    = Py.Returns 0%Z.
Proof.
  apply (version_comparator_trailing_zero Version.no_unicode_digit
           Version.no_unicode_decimal (Py.of_string "1.4") [1; 4]%Z).
  vm_compute. reflexivity.
Defined.

(** ** More on the driver *)

Section CliMore.
Import Py Cli.
Variable splitext : str → str * str.
Variable path_join : str → str → str.
Variable normpath : str → str.
Variable find_start : Language → str → bool.
Variable clinic_parse : Language → bool → str → bool → str → M str.
Variable write_file : str → str → M unit.
Variable report : exception → str.
Variable parse_args : list str → M Namespace.
Variable print_converters : M unit.
Variable os_walk :
  str → (list str → list str) → (str → list str → M unit) → M unit.

Local Abbreviation parse_file :=
  (Cli.parse_file splitext find_start clinic_parse write_file).
Local Abbreviation run_clinic :=
  (Cli.run_clinic splitext path_join normpath find_start clinic_parse
     write_file print_converters os_walk).
Local Abbreviation main :=
  (Cli.main splitext path_join normpath find_start clinic_parse write_file
     report parse_args print_converters os_walk).
Implicit Types (w : world) (ns : Namespace) (e : exception).

Lemma parser_error_run (message : string) (k : M unit) w :
  (parser_error message ;; k) w
  = (mkWorld (files w) (stdout w) (stderr w ++ [of_string message]),
     Raises (sys_exit 2)).
Proof. done. Qed.

Lemma run_clinic_usage_error ns w :
  usage_error ns →
  ∃ message,
    run_clinic ns w
    = (mkWorld (files w) (stdout w) (stderr w ++ [message]),
       Raises (sys_exit 2)).
Proof.
  rewrite /usage_error /Cli.run_clinic /Cli.run_make.
  destruct (converters ns).
  { intros Hf. rewrite (bool_decide_eq_true_2 (filename ns ≠ [])); [|done].
    eexists. apply parser_error_run. }
  destruct (make ns).
  - intros [Ho|[Hf|Hs]].
    + rewrite Ho /=. eexists. apply parser_error_run.
    + rewrite (bool_decide_eq_true_2 (filename ns ≠ [])); [|done].
      rewrite orb_true_r. eexists. apply parser_error_run.
    + destruct (truthy (output ns) || bool_decide (filename ns ≠ [])).
      { eexists. apply parser_error_run. }
      rewrite (bool_decide_eq_true_2 (srcdir ns = [])); [|done].
      by eexists.
  - intros [Hf|[Ho Hlen]].
    + rewrite (bool_decide_eq_true_2 (filename ns = [])); [|done].
      eexists. apply parser_error_run.
    + destruct (bool_decide (filename ns = [])).
      { eexists. apply parser_error_run. }
      rewrite Ho (bool_decide_eq_true_2 (1 < length (filename ns))); [|done].
      by eexists.
Qed.

Lemma for_each_app {A} (l1 l2 : list A) (body : A → M unit) w :
  for_each (l1 ++ l2) body w
  = match for_each l1 body w with
    | (w1, Returns _) => for_each l2 body w1
    | (w1, Raises e) => (w1, Raises e)
    end.
Proof.
  revert w. induction l1 as [|x l1 IH]; intros w; [done|].
  cbn [app for_each]. rewrite /mbind /M_bind /bind.
  destruct (body x w) as [w' [[]|e]]; [apply IH|done].
Qed.

Lemma for_each_unchanged {A} (l : list A) (body : A → M unit) w :
  Forall (fun x => body x w = (w, Returns tt)) l →
  for_each l body w = (w, Returns tt).
Proof.
  induction 1 as [|x l Hx _ IH]; [done|].
  cbn [for_each]. by rewrite /mbind /M_bind /bind Hx.
Qed.

(** The loop of [run_clinic] over the file names, when neither
    [--converters] nor [--make] is given and the invocation is accepted. *)
Lemma run_clinic_files ns w :
  converters ns = false → make ns = false → ¬ usage_error ns →
  run_clinic ns w
  = for_each (filename ns) (fun filename =>
      (if verbose ns then print filename else ret tt) ;;
      parse_file filename (limited_capi ns) (output ns) (negb (force ns))) w.
Proof.
  intros Hc Hm. rewrite /usage_error /Cli.run_clinic Hc Hm. intros Hok.
  rewrite (bool_decide_eq_false_2 (filename ns = [])); [|tauto].
  destruct (truthy (output ns)); [|done].
  rewrite (bool_decide_eq_false_2 (1 < length (filename ns))); [|tauto].
  done.
Qed.

(** X12. An invocation that [run_clinic] rejects ([--converters] with a
    file name; [--make] with [-o], a file name or an empty [--srcdir]; no
    file name; [-o] with several file names) ends [main] with exit status
    2, not 1: one message is written to the error stream, and no file is
    read, parsed or written. *)
Theorem main_usage_error argv w w1 ns :
  parse_args argv w = (w1, Returns ns) →
  usage_error ns →
  ∃ message,
    main argv w
    = (mkWorld (files w1) (stdout w1) (stderr w1 ++ [message]), sys_exit 2).
Proof.
  intros Hargs Hbad.
  destruct (run_clinic_usage_error ns w1 Hbad) as [message Hrun].
  exists message. by rewrite /Cli.main Hargs Hrun.
Qed.

(** X13. [run_clinic] stops at the first file that fails: when the files
    before it were processed and [parse_file] raises on it, [run_clinic]
    raises the same exception from the same world, whatever files
    follow. *)
Theorem run_clinic_stops_at_failure ns done f rest w w1 w2 e :
  converters ns = false → make ns = false → truthy (output ns) = false →
  (done = [] ∧ w1 = w) ∨ run_clinic (with_filename ns done) w = (w1, Returns tt) →
  parse_file f (limited_capi ns) (output ns) (negb (force ns))
    (if verbose ns then (print f w1).1 else w1)
  = (w2, Raises e) →
  run_clinic (with_filename ns (done ++ f :: rest)) w = (w2, Raises e).
Proof.
  intros Hc Hm Ho Hdone Hf.
  assert (Hok : ∀ l, l ≠ [] → ¬ usage_error (with_filename ns l)).
  { intros l Hl. rewrite /usage_error /= Hc Hm Ho. by intros [?|[? _]]. }
  rewrite run_clinic_files; [|done|done|by apply Hok; intros [_ ?]%app_nil].
  cbn [filename with_filename verbose limited_capi output force].
  rewrite for_each_app.
  assert (for_each done (fun filename =>
            (if verbose ns then print filename else ret tt) ;;
            parse_file filename (limited_capi ns) (output ns) (negb (force ns))) w
          = (w1, Returns tt)) as ->.
  { destruct Hdone as [[-> ->]|Hrun]; [done|].
    destruct done as [|d done].
    { destruct (run_clinic_usage_error (with_filename ns []) w) as [m Hm'].
      - rewrite /usage_error /= Hc Hm. by left.
      - rewrite Hm' in Hrun. by injection Hrun. }
    rewrite run_clinic_files in Hrun; [done|done|done|by apply Hok]. }
  cbn [for_each]. rewrite /mbind /M_bind /bind.
  destruct (verbose ns); simpl in *; by rewrite Hf.
Qed.

(** X14. A run over files that all bear a registered extension and hold
    no start marker changes nothing and ends with exit status 0. *)
Theorem main_no_markers argv w0 w ns :
  parse_args argv w0 = (w, Returns ns) →
  converters ns = false → make ns = false → verbose ns = false →
  ¬ usage_error ns →
  Forall (fun f => ∃ raw language_class,
            files w !! f = Some raw
            ∧ extensions !! drop 1 (splitext f).2 = Some language_class
            ∧ find_start (language_class f) raw = false) (filename ns) →
  run_clinic ns w = (w, Returns tt) ∧ main argv w0 = (w, sys_exit 0).
Proof.
  intros Hargs Hc Hm Hv Hok Hall.
  assert (Hrun : run_clinic ns w = (w, Returns tt)).
  { rewrite run_clinic_files; [|done..]. rewrite Hv.
    apply for_each_unchanged. eapply Forall_impl; [exact Hall|].
    intros f (raw & language_class & Hraw & Hext & Hfind).
    rewrite /mbind /M_bind /bind /=.
    by rewrite (parse_file_fast_path _ _ _ _ _ _ _ _ _ _ _ Hext Hraw Hfind). }
  split; [done|]. by rewrite /Cli.main Hargs Hrun.
Qed.

End CliMore.

(** No file name at all: [no input files], exit status 2. *)
Lemma main_usage_error_witness :
  ∃ message,
    Cli.sample_main [] Cli.sample_world
    = (Cli.mkWorld (Cli.files Cli.sample_world) [] ([] ++ [message]),
       Cli.sys_exit 2).
Proof.
  apply (main_usage_error Cli.posix_splitext
           (fun a b => a ++ Py.of_string "/" ++ b) id Cli.sample_find_start
           Cli.sample_clinic_parse Cli.sample_write_file Cli.sample_report
           Cli.sample_parse_args (Cli.ret tt) (fun _ _ _ => Cli.ret tt)
           [] Cli.sample_world Cli.sample_world (Cli.sample_namespace [])).
  - reflexivity.
  - vm_compute. by left.
Defined.

(** [module.c] is processed, [README] fails, [versioned.c] is not
    reached: the exception is the one of [README]. *)
Lemma run_clinic_stops_at_failure_witness :
  Cli.sample_run_clinic
    (Cli.sample_namespace
       [Py.of_string "module.c"; Py.of_string "README"; Py.of_string "versioned.c"])
    Cli.sample_world
  = (Cli.sample_world,
     Py.Raises (Py.Exc Py.ClinicError
       [Py.VStr (Py.of_string "Can't extract file type for file ");
        Py.VStr (Py.of_string "README")])).
Proof.
  apply (run_clinic_stops_at_failure Cli.posix_splitext
           (fun a b => a ++ Py.of_string "/" ++ b) id
           Cli.sample_find_start Cli.sample_clinic_parse Cli.sample_write_file
           (Cli.ret tt) (fun _ _ _ => Cli.ret tt)
           (Cli.sample_namespace []) [Py.of_string "module.c"]
           (Py.of_string "README") [Py.of_string "versioned.c"]
           Cli.sample_world Cli.sample_world Cli.sample_world).
  - reflexivity.
  - reflexivity.
  - reflexivity.
  - right. vm_compute. reflexivity.
  - vm_compute. reflexivity.
Defined.

(** [module.c] holds no marker: nothing changes, exit status 0. *)
Lemma main_no_markers_witness :
  Cli.sample_run_clinic (Cli.sample_namespace [Py.of_string "module.c"])
    Cli.sample_world
  = (Cli.sample_world, Py.Returns tt)
  ∧ Cli.sample_main [Py.of_string "module.c"] Cli.sample_world
    = (Cli.sample_world, Cli.sys_exit 0).
Proof.
  apply (main_no_markers Cli.posix_splitext
           (fun a b => a ++ Py.of_string "/" ++ b) id Cli.sample_find_start
           Cli.sample_clinic_parse Cli.sample_write_file Cli.sample_report
           Cli.sample_parse_args (Cli.ret tt) (fun _ _ _ => Cli.ret tt)
           [Py.of_string "module.c"]
           Cli.sample_world Cli.sample_world
           (Cli.sample_namespace [Py.of_string "module.c"])).
  - reflexivity.
  - reflexivity.
  - reflexivity.
  - reflexivity.
  - vm_compute. intros [H|[H _]]; discriminate H.
  - constructor; [|constructor].
    exists (Py.of_string "int x;"), Cli.CLanguage. split_and!; by vm_compute.
Defined.


Section PruneFacts.
Import Py Cli.
Implicit Types (dirs names : list str) (x d : str).

Lemma filter_other_id x dirs : x ∉ dirs → filter (fun d => d ≠ x) dirs = dirs.
Proof.
  induction dirs as [|d dirs IH]; [done|].
  intros [Hd Hx]%not_elem_of_cons.
  rewrite filter_cons_True; [|by intros ->]. by rewrite IH.
Qed.

Lemma list_remove_filter x dirs :
  NoDup dirs → list_remove x dirs = filter (fun d => d ≠ x) dirs.
Proof.
  induction 1 as [|d dirs Hd Hnd IH]; [done|].
  cbn [list_remove]. case_decide as Hx.
  - subst d. rewrite filter_cons_False; [|by intros ?].
    by rewrite filter_other_id.
  - rewrite filter_cons_True; [|by intros ->]. by rewrite IH.
Qed.

Lemma prune_step x dirs :
  NoDup dirs →
  (if bool_decide (x ∈ dirs) then list_remove x dirs else dirs)
  = filter (fun d => d ≠ x) dirs.
Proof.
  intros Hnd. case_bool_decide as Hx; [by apply list_remove_filter|].
  by rewrite filter_other_id.
Qed.

Lemma prune_fold names dirs :
  NoDup dirs →
  foldl (fun dirs x => if bool_decide (x ∈ dirs) then list_remove x dirs else dirs)
        dirs names
  = filter (fun d => d ∉ names) dirs.
Proof.
  revert dirs. induction names as [|x names IH]; intros dirs Hnd.
  - simpl. symmetry. clear Hnd. induction dirs as [|d dirs IHd]; [done|].
    rewrite filter_cons_True; [|by intros ?%elem_of_nil]. by rewrite IHd.
  - cbn [foldl]. rewrite prune_step; [|done].
    rewrite IH; [|by apply NoDup_filter].
    rewrite list_filter_filter. apply list_filter_iff.
    intros d. rewrite not_elem_of_cons. tauto.
Qed.

End PruneFacts.

(** X15. In [--make] mode the loop over the directories of a walk takes
    [.svn], [.git], [.hg], [build] and [externals] out of the list of
    subdirectories and leaves the others as they are, in their order, the
    list holding no name twice (as a directory listing does). *)
Theorem prune_rcs_dirs_filter (dirs : list Py.str) :
  NoDup dirs →
  Cli.prune_rcs_dirs dirs = filter (fun d => d ∉ Cli.rcs_dirs) dirs.
Proof. intros Hnd. by apply prune_fold. Qed.

(** A listing with two of the five names. *)
Lemma prune_rcs_dirs_filter_witness :
  Cli.prune_rcs_dirs
    (Py.of_string <$> ["Modules"; ".git"; "Objects"; "build"]%string)
  = filter (fun d => d ∉ Cli.rcs_dirs)
      (Py.of_string <$> ["Modules"; ".git"; "Objects"; "build"]%string).
Proof.
  apply prune_rcs_dirs_filter.
  apply (bool_decide_unpack _). vm_compute. exact I.
Defined.

(** ** The limited C API *)

Section LimitedFacts.
Import Py Cli.
Variable splitext : str → str * str.
Variable find_start : Language → str → bool.
Variable clinic_parse : Language → bool → str → bool → str → M str.
Variable write_file : str → str → M unit.
Local Abbreviation parse_file :=
  (Cli.parse_file splitext find_start clinic_parse write_file).

Lemma skip_spaces_run (n : nat) (s : str) :
  skip_spaces (replicate n (chr " ") ++ of_string "Py_LIMITED_API" ++ s)
  = of_string "Py_LIMITED_API" ++ s.
Proof. induction n as [|n IH]; [done|]. by rewrite /= IH. Qed.

Lemma regex_search_later (matches_at : str → bool) (pre s : str) :
  matches_at s = true → regex_search matches_at (pre ++ s) = true.
Proof.
  intros Hs. induction pre as [|c pre IH].
  - destruct s; by rewrite /= Hs.
  - by rewrite /= IH orb_true_r.
Qed.

Lemma limited_capi_search (pre post : str) (n : nat) :
  regex_search limited_capi_at
    (pre ++ of_string "#define" ++ replicate (S n) (chr " ")
         ++ of_string "Py_LIMITED_API" ++ post)
  = true.
Proof.
  apply regex_search_later. rewrite /limited_capi_at.
  apply andb_true_iff. split; [done|].
  change (drop 8 _) with
    (replicate n (chr " ") ++ of_string "Py_LIMITED_API" ++ post).
  by rewrite skip_spaces_run.
Qed.

Lemma parse_file_limited filename limited_capi output verify w raw :
  files w !! filename = Some raw →
  regex_search limited_capi_at raw = true →
  parse_file filename limited_capi output verify w
  = parse_file filename true output verify w.
Proof.
  intros Hraw Hlim. rewrite /Cli.parse_file.
  destruct (drop 1 (splitext filename).2) as [|c extension]; [done|].
  destruct (extensions !! (c :: extension)) as [language_class|]; [|done].
  rewrite /mbind /M_bind /bind /read_file Hraw Hlim. done.
Qed.

End LimitedFacts.

(** X16. A file whose text holds [#define], one or more spaces and
    [Py_LIMITED_API] is processed for the limited C API whether or not
    [--limited] was given: [parse_file] does the same with either value of
    [limited_capi]. *)
Theorem parse_file_limited_capi
    (splitext : Py.str → Py.str * Py.str)
    (find_start : Cli.Language → Py.str → bool)
    (clinic_parse : Cli.Language → bool → Py.str → bool → Py.str → Cli.M Py.str)
    (write_file : Py.str → Py.str → Cli.M unit)
    (filename : Py.str) (limited_capi : bool) (output : option Py.str)
    (verify : bool) (w : Cli.world) (pre post : Py.str) (n : nat) :
  Cli.files w !! filename
  = Some (pre ++ Py.of_string "#define" ++ replicate (S n) (Py.chr " ")
              ++ Py.of_string "Py_LIMITED_API" ++ post) →
  Cli.parse_file splitext find_start clinic_parse write_file
    filename limited_capi output verify w
  = Cli.parse_file splitext find_start clinic_parse write_file
      filename true output verify w.
Proof.
  intros Hraw. eapply parse_file_limited; [exact Hraw|].
  apply limited_capi_search.
Qed.

(** A text with the definition on its second line. *)
Lemma parse_file_limited_capi_witness :
  Cli.sample_parse_file (Py.of_string "limited.c") false None true
    (Cli.mkWorld
       {[ Py.of_string "limited.c" :=
            (Py.of_string "[clinic input]1.0" ++ [10%N])
              ++ Py.of_string "#define" ++ replicate 2 (Py.chr " ")
              ++ Py.of_string "Py_LIMITED_API" ++ [10%N] ]} [] [])
  = Cli.sample_parse_file (Py.of_string "limited.c") true None true
      (Cli.mkWorld
         {[ Py.of_string "limited.c" :=
              (Py.of_string "[clinic input]1.0" ++ [10%N])
                ++ Py.of_string "#define" ++ replicate 2 (Py.chr " ")
                ++ Py.of_string "Py_LIMITED_API" ++ [10%N] ]} [] []).
Proof.
  apply (parse_file_limited_capi Cli.posix_splitext Cli.sample_find_start
           Cli.sample_clinic_parse Cli.sample_write_file
           (Py.of_string "limited.c") false None true _
           (Py.of_string "[clinic input]1.0" ++ [10%N]) [10%N] 1).
  vm_compute. reflexivity.
Defined.

(** ** Optional groups on one side only *)

Section OneSide.
Import Py OptionGroups.
Context {Param : Type}.
Implicit Types (l left right : list (list Param)) (required : list Param).
Implicit Types (t u : list Param) (res target : list (list Param)).

Lemma strictly_sorted_NoDup res :
  StronglySorted (fun a b => length a < length b) res → NoDup res.
Proof.
  induction 1 as [|x res _ IH Hx]; constructor; [|done].
  intros Hin. rewrite Forall_forall in Hx. specialize (Hx x Hin). lia.
Qed.

Lemma strictly_sorted_unique res target :
  StronglySorted (fun a b => length a < length b) res →
  StronglySorted (fun a b => length a < length b) target →
  (∀ t, t ∈ res ↔ t ∈ target) → res = target.
Proof.
  intros Hres Htarget Hiff.
  apply (StronglySorted_unique_strong
           (fun a b : list Param => length a < length b)); [|done|done|].
  - intros x1 x2 _ _ ? ?. lia.
  - apply NoDup_Permutation; [by apply strictly_sorted_NoDup..|done].
Qed.

Lemma increasing_sorted (G : nat → list Param) (a n : nat) :
  (∀ k k', a ≤ k → k < k' → k' < a + n → length (G k) < length (G k')) →
  StronglySorted (fun a b => length a < length b) (G <$> seq a n).
Proof.
  revert a. induction n as [|n IH]; intros a Hinc; [constructor|].
  cbn [seq fmap list_fmap]. constructor.
  - apply IH. intros k k' ? ? ?. apply Hinc; lia.
  - apply Forall_fmap, Forall_forall. intros k [? ?]%elem_of_seq.
    apply Hinc; lia.
Qed.

Lemma concat_take_increasing l k k' :
  Forall (fun g => g ≠ []) l → k < k' → k' ≤ length l →
  length (concat (take k l)) < length (concat (take k' l)).
Proof.
  intros Hl. revert k k'. induction Hl as [|g l Hg _ IH]; intros k k' Hk Hk'.
  { simpl in Hk'. lia. }
  destruct k' as [|k']; [lia|]. simpl in Hk'.
  destruct k as [|k]; simpl.
  - rewrite length_app. destruct g; [done|]. simpl. lia.
  - rewrite !length_app. specialize (IH k k'). lia.
Qed.

Lemma single_axis left required right (G : nat → list Param) (n : nat) :
  ¬ (required = [] ∧ left ≠ []) →
  (∀ i j, i ≤ length left → j ≤ length right →
     ∃ k, k < n ∧ variant left required right i j = G k) →
  (∀ k, k < n → ∃ i j, i ≤ length left ∧ j ≤ length right
                   ∧ variant left required right i j = G k) →
  (∀ k k', k < k' → k' < n → length (G k) < length (G k')) →
  permute_optional_groups left required right = Returns (G <$> seq 0 n).
Proof.
  intros Hok Hto Hfrom Hinc.
  rewrite permute_optional_groups_returns; [|done]. f_equal.
  pose proof (visited_outer (S (length left))
                (variant left required right) (S (length right)))
    as [_ Hn Hf Ha].
  set (acc := (foldl _ _ _).1) in *.
  apply strictly_sorted_unique.
  - apply sorted_distinct_strict; [apply sort_by_len_sorted|].
    by rewrite sort_by_len_perm.
  - apply increasing_sorted. intros k k' _ ? ?. apply Hinc; lia.
  - intros t. rewrite sort_by_len_perm list_elem_of_fmap. split.
    + intros Ht. destruct (Hf t Ht) as (i & j & Hi & Hb & -> & _).
      destruct (Hto i j) as (k & Hk & Heq); [lia| |].
      { destruct Hb as [?|[? ?]]; simpl in *; lia. }
      exists k. split; [done|]. apply elem_of_seq. lia.
    + intros (k & -> & [_ Hk]%elem_of_seq).
      destruct (Hfrom k) as (i & j & Hi & Hj & Heq); [lia|].
      destruct (Ha i j) as (t & Ht & Hlen); [lia|left; simpl; lia|].
      destruct (Hf t Ht) as (i' & j' & Hi' & Hb & -> & _).
      destruct (Hto i' j') as (k' & Hk' & Heq'); [lia| |].
      { destruct Hb as [?|[? ?]]; simpl in *; lia. }
      rewrite Heq Heq' in Hlen. rewrite Heq' in Ht.
      destruct (decide (k' = k)) as [->|Hne]; [done|].
      destruct (decide (k' < k)).
      * specialize (Hinc k' k). lia.
      * specialize (Hinc k k'). lia.
Qed.

End OneSide.

(** X17. With no left group and no empty right group, the result of
    [permute_optional_groups] is the required parameters followed by the
    first [j] right groups, for [j] from 0 to the number of right groups,
    in this order: one tuple per right group and one for none. *)
Theorem permute_optional_groups_right_only
    (Param : Type) (required : list Param) (right : list (list Param)) :
  Forall (fun group => group ≠ []) right →
  OptionGroups.permute_optional_groups [] required right
  = Py.Returns ((fun j => required ++ concat (take j right))
                  <$> seq 0 (S (length right))).
Proof.
  intros Hne. apply single_axis.
  - by intros [_ ?].
  - intros i j Hi Hj. exists j. split; [lia|].
    rewrite /OptionGroups.variant /OptionGroups.left_variant. by destruct i.
  - intros k Hk. exists 0, k. split_and!; [done|lia|done].
  - intros k k' ? ?. rewrite !length_app.
    pose proof (concat_take_increasing right k k' Hne). lia.
Qed.

(** Two right groups. *)
Lemma permute_optional_groups_right_only_witness :
  OptionGroups.permute_optional_groups [] [10] [[20; 21]; [30]]
  = Py.Returns ((fun j => [10] ++ concat (take j [[20; 21]; [30]]))
                  <$> seq 0 3).
Proof.
  apply (permute_optional_groups_right_only nat [10] [[20; 21]; [30]]).
  repeat constructor; discriminate.
Defined.

(** X18. With no right group and no empty left group, the result of
    [permute_optional_groups], when there is one, is the last [i] left
    groups followed by the required parameters, for [i] from 0 to the
    number of left groups, in this order. *)
Theorem permute_optional_groups_left_only
    (Param : Type) (left : list (list Param)) (required : list Param) :
  ¬ (required = [] ∧ left ≠ []) →
  Forall (fun group => group ≠ []) left →
  OptionGroups.permute_optional_groups left required []
  = Py.Returns ((fun i => concat (drop (length left - i) left) ++ required)
                  <$> seq 0 (S (length left))).
Proof.
  intros Hok Hne. apply single_axis.
  - done.
  - intros i j Hi Hj. exists i. split; [lia|].
    rewrite /OptionGroups.variant /OptionGroups.right_variant.
    destruct j; by rewrite /= app_nil_r.
  - intros k Hk. exists k, 0. split_and!; [lia|done|].
    by rewrite /OptionGroups.variant /OptionGroups.right_variant /= app_nil_r.
  - intros k k' ? ?. rewrite !length_app.
    pose proof (concat_take_drop_length left (length left - k)).
    pose proof (concat_take_drop_length left (length left - k')).
    pose proof (concat_take_increasing left (length left - k')
                  (length left - k) Hne).
    lia.
Qed.

(** Two left groups. *)
Lemma permute_optional_groups_left_only_witness :
  OptionGroups.permute_optional_groups [[1]; [2; 3]] [10] []
  = Py.Returns ((fun i => concat (drop (2 - i) [[1]; [2; 3]]) ++ [10])
                  <$> seq 0 3).
Proof.
  apply (permute_optional_groups_left_only nat [[1]; [2; 3]] [10]).
  - intros [Hreq _]. discriminate Hreq.
  - repeat constructor; discriminate.
Defined.

(** ** The ARGS alternative *)

Section LexerArgs.
Import Py Lexer.
Variable unicode_isalnum : N → bool.
Local Abbreviation regex_match := (Lexer.regex_match unicode_isalnum).
Local Abbreviation finditer := (Lexer.finditer unicode_isalnum).
Local Abbreviation tokenize := (Lexer.tokenize unicode_isalnum).
Implicit Types (s body tail : str) (c : N).

Lemma take_while_app_all (p : N → bool) s s' :
  Forall (fun c => p c = true) s →
  take_while p (s ++ s') = s ++ take_while p s'.
Proof. induction 1 as [|c s Hc _ IH]; [done|]. by rewrite /= Hc IH. Qed.

Lemma last_index_none c s : c ∉ s → last_index c s = None.
Proof.
  induction s as [|d s IH]; [done|].
  intros [Hd Hs]%not_elem_of_cons. rewrite /= IH; [|done].
  destruct (N.eqb_spec d c) as [->|]; done.
Qed.

Lemma last_index_app c s s' :
  c ∉ s' → last_index c (s ++ c :: s') = Some (length s).
Proof.
  intros Hs'. induction s as [|d s IH].
  - rewrite /= last_index_none; [|done]. by rewrite N.eqb_refl.
  - by rewrite /= IH.
Qed.

Lemma finditer_skip s skip :
  skip ≤ length s → finditer skip s = finditer 0 (drop skip s).
Proof.
  revert skip. induction s as [|c s IH]; intros skip Hskip.
  - by destruct skip.
  - destruct skip as [|skip]; [done|]. simpl in Hskip.
    cbn [Lexer.finditer drop]. apply IH. lia.
Qed.

Lemma regex_match_args body tail :
  10%N ∉ body → chr ")" ∉ tail →
  regex_match (chr "(" :: body ++ chr ")" :: tail)
  = Some (ARGS, S (S (length body))).
Proof.
  intros Hbody Htail.
  rewrite /Lexer.regex_match /token_specification /first_alternative.
  change (match_ARROW (chr "(" :: body ++ chr ")" :: tail)) with (@None nat).
  change (match_CLONE (chr "(" :: body ++ chr ")" :: tail)) with (@None nat).
  rewrite /match_ARGS N.eqb_refl.
  rewrite take_while_app_all.
  2:{ apply Forall_forall. intros c Hc. rewrite /is_dot.
      apply negb_true_iff, N.eqb_neq. by intros ->. }
  cbn [take_while]. change (is_dot (chr ")")) with true. cbn match.
  rewrite last_index_app; [done|].
  intros Hin. apply Htail.
  rewrite -(take_while_prefix is_dot tail) in Hin.
  by apply subseteq_take in Hin.
Qed.

End LexerArgs.

(** X19. An opening parenthesis starts an ARGS token that runs to the
    last closing parenthesis of the line, whatever lies between: when no
    newline comes before that parenthesis and no closing parenthesis after
    it, the text between is taken whole, parentheses and stray characters
    included, and tokenizing goes on behind it. *)
Theorem tokenize_args_greedy (unicode_isalnum : N → bool)
    (body tail : Py.str) :
  10%N ∉ body → Py.chr ")" ∉ tail →
  Lexer.tokenize unicode_isalnum (Py.chr "(" :: body ++ Py.chr ")" :: tail)
  = (Lexer.mkToken Lexer.ARGS (Py.chr "(" :: body ++ [Py.chr ")"])
       :: (Lexer.tokenize unicode_isalnum tail).1,
     (Lexer.tokenize unicode_isalnum tail).2).
Proof.
  intros Hbody Htail. rewrite /Lexer.tokenize. cbn [Lexer.finditer].
  rewrite regex_match_args; [|done..].
  rewrite finditer_skip; [|rewrite length_app /=; lia].
  replace (S (S (length body)) - 1) with (length body + 1) by lia.
  rewrite -drop_drop drop_app_length /=.
  assert (take (S (length body)) (body ++ Py.chr ")" :: tail)
          = body ++ [Py.chr ")"]) as ->; [|done].
  rewrite (cons_middle (Py.chr ")") body tail) (assoc_L (++)).
  apply take_app_length'. rewrite length_app /=. lia.
Qed.

(** The line [(a)(#) x]: one ARGS token, then the word. *)
Lemma tokenize_args_greedy_witness :
  Lexer.tokenize Lexer.ascii_only (Py.of_string "(a)(#) x")
  = ([ Lexer.mkToken Lexer.ARGS (Py.of_string "(a)(#)");
       Lexer.mkToken Lexer.WORD (Py.of_string "x") ], None).
Proof.
  apply (tokenize_args_greedy Lexer.ascii_only (Py.of_string "a)(#")
           (Py.of_string " x")).
  - apply (bool_decide_unpack _). vm_compute. exact I.
  - apply (bool_decide_unpack _). vm_compute. exact I.
Defined.

(** ** Stray characters *)

Section LexerStray.
Import Py Lexer.
Variable unicode_isalnum : N → bool.
Local Abbreviation regex_match := (Lexer.regex_match unicode_isalnum).
Local Abbreviation finditer := (Lexer.finditer unicode_isalnum).
Local Abbreviation is_word := (Lexer.is_word unicode_isalnum).
Local Abbreviation never_matches := (Lexer.never_matches unicode_isalnum).
Local Abbreviation tokenize := (Lexer.tokenize unicode_isalnum).
Implicit Types (s pre post a b body tail : str) (c x : N).

(** *** Where the scan of a prefix is the scan of the line

    A character that is neither a word character, a dot, a space nor [>]
    ends every WORD, SPACE and ARROW match before it; the scan of the text
    before it is then the scan of that text alone, as long as no ARGS match
    reaches it. *)

Lemma regex_match_cut c pre x post :
  is_word x = false → x ≠ chr "." → x ≠ chr " " → x ≠ chr ">" →
  match_ARGS (c :: pre ++ x :: post) = match_ARGS (c :: pre) →
  regex_match (c :: pre ++ x :: post) = regex_match (c :: pre).
Proof.
  intros Hw Hdot Hsp Hgt Hargs.
  rewrite /Lexer.regex_match /token_specification /first_alternative.
  rewrite match_ARROW_stop; [|done]. rewrite match_CLONE_stop Hargs.
  rewrite /match_WORD /match_SPACE !app_comm_cons.
  rewrite !nonempty_run_stop; [done|..].
  - by apply N.eqb_neq.
  - rewrite Hw /=. by apply N.eqb_neq.
Qed.

Lemma finditer_cut pre x post skip :
  is_word x = false → x ≠ chr "." → x ≠ chr " " → x ≠ chr ">" →
  (∀ a c b, pre = a ++ c :: b →
     match_ARGS (c :: b ++ x :: post) = match_ARGS (c :: b)) →
  skip ≤ length pre →
  finditer skip (pre ++ x :: post) = finditer skip pre ++ finditer 0 (x :: post).
Proof.
  intros Hw Hdot Hsp Hgt. revert skip.
  induction pre as [|c pre IH]; intros skip Hargs Hskip.
  - destruct skip; [done|simpl in Hskip; lia].
  - assert (Hpre : ∀ a c' b, pre = a ++ c' :: b →
              match_ARGS (c' :: b ++ x :: post) = match_ARGS (c' :: b)).
    { intros a c' b ->. by apply (Hargs (c :: a)). }
    destruct skip as [|skip]; [|apply IH; [done|simpl in Hskip; lia]].
    cbn [app Lexer.finditer].
    rewrite regex_match_cut; [|done..|by apply (Hargs [])].
    destruct (regex_match (c :: pre)) as [[k n]|] eqn:Hm.
    + apply regex_match_bounds in Hm. simpl in Hm.
      rewrite IH; [|done|lia].
      rewrite (app_comm_cons pre) take_app_le; [done|simpl; lia].
    + rewrite IH; [done|done|lia].
Qed.

(** An ARGS match does not reach [x] when its opening parenthesis stands
    on an earlier line, or when the line of [x] has no closing parenthesis
    from [x] on. *)

Lemma match_ARGS_earlier_line c b s :
  10%N ∈ b → match_ARGS (c :: b ++ s) = match_ARGS (c :: b).
Proof.
  intros (u & v & ->)%list_elem_of_split.
  by rewrite -(assoc_L (++)) -app_comm_cons !match_ARGS_line.
Qed.

Lemma args_run_stop b s :
  chr ")" ∉ take_while is_dot s →
  last_index (chr ")") (take_while is_dot (b ++ s))
  = last_index (chr ")") (take_while is_dot b).
Proof.
  intros Hs. induction b as [|d b IH]; simpl.
  - by apply last_index_none.
  - destruct (is_dot d); [|done]. by rewrite /= IH.
Qed.

Lemma match_ARGS_no_close c b x post :
  x ≠ chr ")" → chr ")" ∉ take_while is_dot post →
  match_ARGS (c :: b ++ x :: post) = match_ARGS (c :: b).
Proof.
  intros Hx Hpost. rewrite /match_ARGS. destruct (c =? chr "(")%N; [|done].
  rewrite args_run_stop; [done|].
  simpl. destruct (is_dot x); [|apply not_elem_of_nil].
  by apply not_elem_of_cons.
Qed.

Lemma match_ARGS_not_enclosed pre x post :
  (∀ a b, pre = a ++ chr "(" :: b → 10%N ∈ b)
  ∨ (x ≠ chr ")" ∧ chr ")" ∉ take_while is_dot post) →
  ∀ a c b, pre = a ++ c :: b →
    match_ARGS (c :: b ++ x :: post) = match_ARGS (c :: b).
Proof.
  intros [Hopen|[Hx Hclose]] a c b ->.
  - destruct (decide (c = chr "(")) as [->|Hc].
    + apply match_ARGS_earlier_line. by apply (Hopen a).
    + by rewrite !match_ARGS_other.
  - by apply match_ARGS_no_close.
Qed.

Lemma finditer_stray pre x post :
  never_matches x = true →
  (∀ a b, pre = a ++ chr "(" :: b → 10%N ∈ b)
  ∨ (x ≠ chr ")" ∧ chr ")" ∉ take_while is_dot post) →
  finditer 0 (pre ++ x :: post)
  = finditer 0 pre ++ (MISMATCH, [x]) :: finditer 0 post.
Proof.
  intros Hx Hfree.
  pose proof Hx as (_ & Hw & Hdot & Hsp & _ & _ & _ & Hgt)%never_matches_spec.
  rewrite finditer_cut; [|done..|by apply match_ARGS_not_enclosed|lia].
  cbn [Lexer.finditer]. by rewrite regex_match_stray.
Qed.

(** *** Where an ARGS match takes the character in

    The ARGS match that starts at the first opening parenthesis of a line
    runs to the last closing parenthesis of that line. *)

Lemma regex_match_enclosed body tail :
  10%N ∉ body → chr ")" ∉ take_while is_dot tail →
  regex_match (chr "(" :: body ++ chr ")" :: tail)
  = Some (ARGS, S (S (length body))).
Proof.
  intros Hbody Htail.
  rewrite /Lexer.regex_match /token_specification /first_alternative.
  change (match_ARROW (chr "(" :: body ++ chr ")" :: tail)) with (@None nat).
  change (match_CLONE (chr "(" :: body ++ chr ")" :: tail)) with (@None nat).
  rewrite /match_ARGS N.eqb_refl.
  rewrite take_while_app_all.
  2:{ apply Forall_forall. intros c Hc. rewrite /is_dot.
      apply negb_true_iff, N.eqb_neq. by intros ->. }
  cbn [take_while]. change (is_dot (chr ")")) with true. cbn match.
  by rewrite last_index_app.
Qed.

Lemma finditer_enclosed pre body tail :
  (∀ a b, pre = a ++ chr "(" :: b → 10%N ∈ b) →
  10%N ∉ body → chr ")" ∉ take_while is_dot tail →
  finditer 0 (pre ++ chr "(" :: body ++ chr ")" :: tail)
  = finditer 0 pre
      ++ (ARGS, chr "(" :: body ++ [chr ")"]) :: finditer 0 tail.
Proof.
  intros Hopen Hbody Htail.
  rewrite finditer_cut; [|done..| |lia].
  2:{ intros a c b ->. destruct (decide (c = chr "(")) as [->|Hc].
      - apply match_ARGS_earlier_line. by apply (Hopen a).
      - by rewrite !match_ARGS_other. }
  f_equal. cbn [Lexer.finditer]. rewrite regex_match_enclosed; [|done..].
  rewrite finditer_skip; [|rewrite length_app /=; lia].
  replace (S (S (length body)) - 1) with (length body + 1) by lia.
  rewrite -drop_drop drop_app_length /=.
  assert (take (S (length body)) (body ++ chr ")" :: tail)
          = body ++ [chr ")"]) as ->; [|done].
  rewrite (cons_middle (chr ")") body tail) (assoc_L (++)).
  apply take_app_length'. rewrite length_app /=. lia.
Qed.

(** *** The two cases are all there are *)

Lemma open_paren_split pre :
  (∀ a b, pre = a ++ chr "(" :: b → 10%N ∈ b)
  ∨ (∃ a b, pre = a ++ chr "(" :: b ∧ (10%N ∉ b)
       ∧ ∀ a' b', a = a' ++ chr "(" :: b' → 10%N ∈ b').
Proof.
  induction pre as [|c pre IH].
  { left. intros a b Heq. by destruct a. }
  destruct IH as [Hopen|(a & b & -> & Hb & Ha)].
  - destruct (decide (c = chr "(" ∧ 10%N ∉ pre)) as [[-> Hpre]|Hno].
    + right. exists [], pre. split_and!; [done|done|].
      intros a' b' Heq. by destruct a'.
    + left. intros a b Heq. destruct a as [|d a]; simplify_eq/=.
      * destruct (decide (10%N ∈ b)) as [|Hnot]; [done|].
        by destruct Hno.
      * by apply (Hopen a).
  - destruct (decide (c = chr "(" ∧ 10%N ∉ a)) as [[-> Hnl]|Hno].
    + right. exists [], (a ++ chr "(" :: b). split_and!; [done| |].
      * rewrite elem_of_app elem_of_cons. intros [?|[?|?]]; done.
      * intros a' b' Heq. by destruct a'.
    + right. exists (c :: a), b. split_and!; [done|done|].
      intros a' b' Heq. destruct a' as [|d a']; simplify_eq/=.
      * destruct (decide (10%N ∈ b')) as [|Hnot]; [done|].
        by destruct Hno.
      * by apply (Ha a').
Qed.

Lemma close_paren_split post :
  chr ")" ∈ take_while is_dot post →
  ∃ body tail, post = body ++ chr ")" :: tail ∧ (10%N ∉ body)
    ∧ (chr ")" ∉ take_while is_dot tail).
Proof.
  induction post as [|c post IH]; [by intros ?%elem_of_nil|].
  simpl. destruct (is_dot c) eqn:Hc; [|by intros ?%elem_of_nil].
  destruct (decide (chr ")" ∈ take_while is_dot post)) as [Hin|Hnot].
  - intros _. destruct (IH Hin) as (body & tail & -> & Hbody & Htail).
    exists (c :: body), tail. split_and!; [done| |done].
    apply not_elem_of_cons. split; [|done]. intros <-. done.
  - intros [<-|?]%elem_of_cons; [|done].
    exists [], post. split_and!; [done|apply not_elem_of_nil|done].
Qed.

Lemma stray_cases pre x post :
  never_matches x = true →
  ((∀ a b, pre = a ++ chr "(" :: b → 10%N ∈ b)
   ∨ (x ≠ chr ")" ∧ chr ")" ∉ take_while is_dot post))
  ∨ (∃ a body tail,
       pre ++ x :: post = a ++ chr "(" :: body ++ chr ")" :: tail
       ∧ (∀ a' b, a = a' ++ chr "(" :: b → 10%N ∈ b)
       ∧ (10%N ∉ body) ∧ (chr ")" ∉ take_while is_dot tail)
       ∧ length a < length pre ≤ length a + length body + 1).
Proof.
  intros (Hd & _)%never_matches_spec.
  assert (Hx : x ≠ 10%N) by (by intros ->).
  destruct (open_paren_split pre) as [Hopen|(a & b & -> & Hb & Ha)];
    [by left; left|].
  destruct (decide (chr ")" ∈ take_while is_dot post)) as [Hin|Hnot].
  - right. apply close_paren_split in Hin as (m & tail & -> & Hm & Htail).
    exists a, (b ++ x :: m), tail. split_and!; [|done| |done|..].
    + by rewrite -!app_assoc.
    + rewrite elem_of_app elem_of_cons. intros [?|[?|?]]; done.
    + rewrite length_app /=. lia.
    + rewrite !length_app /=. lia.
  - destruct (decide (x = chr ")")) as [->|Hne]; [|by left; right].
    right. exists a, b, post. split_and!; [|done..| |].
    + by rewrite -app_assoc.
    + rewrite length_app /=. lia.
    + rewrite length_app /=. lia.
Qed.

End LexerStray.

(** C5, as the code has it. [tokenize] never yields a SPACE (or MISMATCH)
    token. Let [x] be a character that no alternative but MISMATCH can
    take part in, such as [#], standing between the texts [pre] and
    [post].

    - When every opening parenthesis of [pre] is followed by a newline in
      [pre], or when [x] is no closing parenthesis and none follows it on
      its line, [tokenize] fails: the tokens yielded are those of [pre],
      and the [ParseError] names the first stray character, which is [x]
      unless [pre] already fails.
    - Otherwise [x] stands behind the first opening parenthesis of its
      line and before the last closing one (or is that one). The ARGS
      token runs from the one to the other whatever lies between, [x]
      included: [tokenize] yields the tokens of the text before it, this
      token and the tokens of the text behind it, and fails only where one
      of these two texts fails.

    A newline is passed over: the tokens of a text are those of its first
    line followed by those of the rest. Whenever [tokenize] fails, the
    error names one character of the line, which is not a newline, a word
    character, a dot, a space or [=]. *)
Theorem tokenize_stray_character (unicode_isalnum : N → bool) :
  (∀ line,
     Forall (fun t => Lexer.kind t ≠ Lexer.SPACE ∧ Lexer.kind t ≠ Lexer.MISMATCH)
            (Lexer.tokenize unicode_isalnum line).1)
  ∧ Lexer.never_matches unicode_isalnum (Py.chr "#") = true
  ∧ (∀ pre x post,
       Lexer.never_matches unicode_isalnum x = true →
       (∀ a b, pre = a ++ Py.chr "(" :: b → 10%N ∈ b)
       ∨ (x ≠ Py.chr ")"
          ∧ Py.chr ")" ∉ Lexer.take_while Lexer.is_dot post) →
       Lexer.tokenize unicode_isalnum (pre ++ x :: post)
       = ((Lexer.tokenize unicode_isalnum pre).1,
          Some (default (Py.Exc Py.ParseError [Py.VStr [x]])
                        (Lexer.tokenize unicode_isalnum pre).2)))
  ∧ (∀ pre body tail,
       (∀ a b, pre = a ++ Py.chr "(" :: b → 10%N ∈ b) →
       10%N ∉ body →
       Py.chr ")" ∉ Lexer.take_while Lexer.is_dot tail →
       Lexer.tokenize unicode_isalnum
         (pre ++ Py.chr "(" :: body ++ Py.chr ")" :: tail)
       = match (Lexer.tokenize unicode_isalnum pre).2 with
         | Some e => Lexer.tokenize unicode_isalnum pre
         | None =>
             ((Lexer.tokenize unicode_isalnum pre).1
                ++ Lexer.mkToken Lexer.ARGS (Py.chr "(" :: body ++ [Py.chr ")"])
                :: (Lexer.tokenize unicode_isalnum tail).1,
              (Lexer.tokenize unicode_isalnum tail).2)
         end)
  ∧ (∀ pre x post,
       Lexer.never_matches unicode_isalnum x = true →
       ((∀ a b, pre = a ++ Py.chr "(" :: b → 10%N ∈ b)
        ∨ (x ≠ Py.chr ")"
           ∧ Py.chr ")" ∉ Lexer.take_while Lexer.is_dot post))
       ∨ (∃ a body tail,
            pre ++ x :: post = a ++ Py.chr "(" :: body ++ Py.chr ")" :: tail
            ∧ (∀ a' b, a = a' ++ Py.chr "(" :: b → 10%N ∈ b)
            ∧ (10%N ∉ body)
            ∧ (Py.chr ")" ∉ Lexer.take_while Lexer.is_dot tail)
            ∧ length a < length pre ≤ length a + length body + 1))
  ∧ (∀ a b,
       Lexer.tokenize unicode_isalnum (a ++ 10%N :: b)
       = match (Lexer.tokenize unicode_isalnum a).2 with
         | Some e => Lexer.tokenize unicode_isalnum a
         | None =>
             ((Lexer.tokenize unicode_isalnum a).1
                ++ (Lexer.tokenize unicode_isalnum b).1,
              (Lexer.tokenize unicode_isalnum b).2)
         end)
  ∧ (∀ line e,
       (Lexer.tokenize unicode_isalnum line).2 = Some e →
       ∃ c, e = Py.Exc Py.ParseError [Py.VStr [c]] ∧ c ∈ line
         ∧ c ≠ 10%N ∧ Lexer.is_word unicode_isalnum c = false
         ∧ c ≠ Py.chr "." ∧ c ≠ Py.chr " " ∧ c ≠ Py.chr "=").
Proof.
  split_and!.
  - intros line. apply tokens_of_kinds.
  - by vm_compute.
  - intros pre x post Hx Hfree. rewrite /Lexer.tokenize.
    rewrite finditer_stray; [|done..]. apply tokens_of_mismatch.
  - intros pre body tail Hopen Hbody Htail. rewrite /Lexer.tokenize.
    rewrite finditer_enclosed; [|done..]. by rewrite tokens_of_app.
  - apply stray_cases.
  - apply tokenize_newline.
  - intros line e (v & Hin & ->)%tokens_of_error.
    apply finditer_mismatch in Hin as (c & -> & ? & Hd & ? & ? & ? & ?).
    exists c. split_and!; try done.
    intros ->. by vm_compute in Hd.
Qed.

(** The line [f(x) #c]: the [#] stands behind the ARGS token [(x)], and
    the line fails at it after the tokens WORD [f] and ARGS [(x)]. *)
Lemma tokenize_stray_character_witness :
  Lexer.tokenize Lexer.ascii_only (Py.of_string "f(x) #c")
  = ([ Lexer.mkToken Lexer.WORD (Py.of_string "f");
       Lexer.mkToken Lexer.ARGS (Py.of_string "(x)") ],
     Some (Py.Exc Py.ParseError [Py.VStr (Py.of_string "#")])).
Proof.
  apply (proj1 (proj2 (proj2 (tokenize_stray_character Lexer.ascii_only)))
           (Py.of_string "f(x) ") (Py.chr "#") (Py.of_string "c")).
  - vm_compute. reflexivity.
  - right. split.
    + intros Heq. vm_compute in Heq. discriminate Heq.
    + apply (bool_decide_unpack _). vm_compute. exact I.
Defined.

(** A [#] between parentheses is part of the ARGS token, and a newline is
    passed over: neither line fails. On the line [$#] the error names
    [$], the first of the two stray characters. *)
Lemma tokenize_hash_in_args :
  Py.chr "#" ∈ Py.of_string "(#)"
  ∧ Lexer.tokenize Lexer.ascii_only (Py.of_string "(#)")
    = ([ Lexer.mkToken Lexer.ARGS (Py.of_string "(#)") ], None)
  ∧ Lexer.tokenize Lexer.ascii_only (Py.of_string "a" ++ [10%N])
    = ([ Lexer.mkToken Lexer.WORD (Py.of_string "a") ], None)
  ∧ Lexer.tokenize Lexer.ascii_only (Py.of_string "$#")
    = ([], Some (Py.Exc Py.ParseError [Py.VStr (Py.of_string "$")])).
Proof.
  split_and!; [|by vm_compute..].
  apply (bool_decide_unpack _). by vm_compute.
Qed.
